(** * HMAC-SHA-256 of Sweet B ([sb_hmac_sha256.c])

    A shallow embedding of the HMAC construction of [sb_hmac_sha256.c] and
    the properties of its streaming interface, of the in-place key
    derivation [sb_hmac_sha256_finish_to_key], and of the RFC 4231 vectors
    the file tests itself against.

    Conventions of the embedding.
    - [sb_byte_t] is [Byte.byte], so that a buffer can only ever hold
      8-bit values.
    - A C buffer is a [list byte]; a pointer into it is the list together
      with an offset.  [memcpy], [memset] and a read of [len] bytes at an
      offset are written out on lists below.
    - A [(pointer, length)] argument whose bytes are only read (the key of
      [sb_hmac_sha256_init], the input of [sb_hmac_sha256_update]) is the
      list of the [length] bytes read; it is a value of its own, that is,
      it does not alias the HMAC state.
    - Every function that mutates [*hmac] takes the state and returns the
      new one; [sb_hmac_sha256_finish] also takes the caller's output
      buffer, with whatever it held, and returns it as written.  The
      output buffer is a buffer of its own too: it has at least
      [SB_SHA256_SIZE] bytes, of which the first [SB_SHA256_SIZE] are
      written. *)

From Stdlib Require Import ZArith NArith Lia.
From Stdlib Require Import Strings.String.
From Stdlib Require Import Init.Byte Strings.Byte.
From stdpp Require Import base list.

(** ** Bytes and buffers *)

(** [typedef uint8_t sb_byte_t]: an alias, as in C. *)
Abbreviation sb_byte_t := byte (only parsing).

(** [a ^ b] on [uint8_t]: both operands are below 256, and so is the
    result; the [x00] branch is never taken (see [byte_xor_to_N]). *)
Definition byte_xor (a b : sb_byte_t) : sb_byte_t :=
  match Byte.of_N (N.lxor (Byte.to_N a) (Byte.to_N b)) with
  | Some c => c
  | None => x00
  end.

(** [memcpy(&dst[off], src, length src)]. *)
Definition memcpy (dst : list sb_byte_t) (off : nat) (src : list sb_byte_t)
  : list sb_byte_t :=
  take off dst ++ src ++ drop (off + length src) dst.

(** [memset(&dst[off], c, n)]. *)
Definition memset (dst : list sb_byte_t) (off : nat) (c : sb_byte_t) (n : nat)
  : list sb_byte_t :=
  memcpy dst off (replicate n c).

(** The [len] bytes read through the pointer [&buf[off]]. *)
Definition bytes_at (buf : list sb_byte_t) (off len : nat) : list sb_byte_t :=
  take len (drop off buf).

(** Modelled from the spec: [SB_SHA256_SIZE] of [sb_sha256.h], which is
    not part of the sources at hand; the digest size D is 32. *)
Definition SB_SHA256_SIZE : nat := 32.

(** Modelled from the spec: [SB_SHA256_BLOCK_SIZE] of [sb_sha256.h], the
    block size B = 64 = 2 * D. *)
Definition SB_SHA256_BLOCK_SIZE : nat := 64.

(** ** The hash engine

    [sb_sha256_init], [sb_sha256_update] and [sb_sha256_finish] are defined
    in [sb_sha256.c], outside of the file verified here.  The HMAC code is
    therefore embedded over an arbitrary engine with that interface:
    - [sha_zeroed] is the engine state whose bytes are all zero, which is
      what [memset(hmac, 0, sizeof *hmac)] leaves behind;
    - [sb_sha256_finish] returns the state it leaves and the digest it
      writes through its output pointer. *)
Class HashEngine := {
  sb_sha256_state_t : Type;
  sha_zeroed : sb_sha256_state_t;
  sb_sha256_init : sb_sha256_state_t → sb_sha256_state_t;
  sb_sha256_update : sb_sha256_state_t → list sb_byte_t → sb_sha256_state_t;
  sb_sha256_finish : sb_sha256_state_t → sb_sha256_state_t * list sb_byte_t
}.

(** ** The HMAC state and its operations *)

Section HMAC.
Context {E : HashEngine}.

(** [sb_hmac_sha256_state_t]: the engine and the block-sized key
    buffer. *)
Record sb_hmac_sha256_state_t := HmacState {
  sha : sb_sha256_state_t;
  key : list sb_byte_t
}.

Definition ipad : sb_byte_t := x36.
Definition opad : sb_byte_t := x5c.

Definition with_key (hmac : sb_hmac_sha256_state_t) (k : list sb_byte_t) :=
  {| sha := sha hmac; key := k |}.
Definition with_sha (hmac : sb_hmac_sha256_state_t) (s : sb_sha256_state_t) :=
  {| sha := s; key := key hmac |}.

(** [for (i = 0; i < SB_SHA256_BLOCK_SIZE; i++) hmac->key[i] ^= pad;] *)
Definition sb_hmac_sha256_key_pad
    (hmac : sb_hmac_sha256_state_t) (pad : sb_byte_t) : sb_hmac_sha256_state_t :=
  with_key hmac
    (foldl (λ k i, alter (λ b, byte_xor b pad) i k)
           (key hmac) (seq 0 SB_SHA256_BLOCK_SIZE)).

Definition sb_hmac_sha256_reinit
    (hmac : sb_hmac_sha256_state_t) : sb_hmac_sha256_state_t :=
  (* Inner-padded key *)
  let hmac := sb_hmac_sha256_key_pad hmac ipad in
  let hmac := with_sha hmac (sb_sha256_init (sha hmac)) in
  let hmac := with_sha hmac
    (sb_sha256_update (sha hmac) (bytes_at (key hmac) 0 SB_SHA256_BLOCK_SIZE)) in
  (* Un-pad key *)
  sb_hmac_sha256_key_pad hmac ipad.

(** [memset(hmac, 0, sizeof(sb_hmac_sha256_state_t))]: the key array has
    [SB_SHA256_BLOCK_SIZE] elements whatever it held before. *)
Definition hmac_zeroed : sb_hmac_sha256_state_t :=
  {| sha := sha_zeroed; key := replicate SB_SHA256_BLOCK_SIZE x00 |}.

(** [key] is the list of the [keylen] bytes at the key pointer. *)
Definition sb_hmac_sha256_init
    (hmac : sb_hmac_sha256_state_t) (k : list sb_byte_t) : sb_hmac_sha256_state_t :=
  let keylen := length k in
  let hmac := hmac_zeroed in
  let hmac :=
    if SB_SHA256_BLOCK_SIZE <? keylen then
      let hmac := with_sha hmac (sb_sha256_init (sha hmac)) in
      let hmac := with_sha hmac (sb_sha256_update (sha hmac) k) in
      let '(s, digest) := sb_sha256_finish (sha hmac) in
      with_key (with_sha hmac s) (memcpy (key hmac) 0 digest)
    else
      with_key hmac (memcpy (key hmac) 0 k) in
  sb_hmac_sha256_reinit hmac.

Definition sb_hmac_sha256_update
    (hmac : sb_hmac_sha256_state_t) (input : list sb_byte_t) : sb_hmac_sha256_state_t :=
  with_sha hmac (sb_sha256_update (sha hmac) input).

Definition sb_hmac_sha256_finish
    (hmac : sb_hmac_sha256_state_t) (output : list sb_byte_t)
  : sb_hmac_sha256_state_t * list sb_byte_t :=
  (* Use output to temporarily store the inner hash *)
  let '(s, digest) := sb_sha256_finish (sha hmac) in
  let hmac := with_sha hmac s in
  let output := memcpy output 0 digest in
  (* Outer-padded key *)
  let hmac := sb_hmac_sha256_key_pad hmac opad in
  let hmac := with_sha hmac (sb_sha256_init (sha hmac)) in
  let hmac := with_sha hmac
    (sb_sha256_update (sha hmac) (bytes_at (key hmac) 0 SB_SHA256_BLOCK_SIZE)) in
  let hmac := with_sha hmac
    (sb_sha256_update (sha hmac) (bytes_at output 0 SB_SHA256_SIZE)) in
  let '(s, digest) := sb_sha256_finish (sha hmac) in
  let hmac := with_sha hmac s in
  let output := memcpy output 0 digest in
  (* Un-pad key *)
  (sb_hmac_sha256_key_pad hmac opad, output).

(** For use in HMAC-DRBG only; assumes the current key is
    [SB_SHA256_SIZE] bytes. *)
Definition sb_hmac_sha256_finish_to_key
    (hmac : sb_hmac_sha256_state_t) : sb_hmac_sha256_state_t :=
  (* Outer-pad key *)
  let hmac := sb_hmac_sha256_key_pad hmac opad in
  (* the other half of the block stores the inner hash *)
  let '(s, digest) := sb_sha256_finish (sha hmac) in
  let hmac := with_key (with_sha hmac s) (memcpy (key hmac) SB_SHA256_SIZE digest) in
  let hmac := with_sha hmac (sb_sha256_init (sha hmac)) in
  (* First half of the key *)
  let hmac := with_sha hmac
    (sb_sha256_update (sha hmac) (bytes_at (key hmac) 0 SB_SHA256_SIZE)) in
  (* Second half of the key is just padding *)
  let hmac := with_key hmac (memset (key hmac) 0 opad SB_SHA256_SIZE) in
  let hmac := with_sha hmac
    (sb_sha256_update (sha hmac) (bytes_at (key hmac) 0 SB_SHA256_SIZE)) in
  (* Inner hash *)
  let hmac := with_sha hmac
    (sb_sha256_update (sha hmac) (bytes_at (key hmac) SB_SHA256_SIZE SB_SHA256_SIZE)) in
  (* Place output into the key *)
  let '(s, digest) := sb_sha256_finish (sha hmac) in
  let hmac := with_key (with_sha hmac s) (memcpy (key hmac) 0 digest) in
  (* Clear the other half of the key *)
  let hmac := with_key hmac (memset (key hmac) SB_SHA256_SIZE x00 SB_SHA256_SIZE) in
  (* Reinitialize the HMAC state with the newly generated key *)
  sb_hmac_sha256_reinit hmac.

Definition sb_hmac_sha256
    (hmac : sb_hmac_sha256_state_t) (k input output : list sb_byte_t)
  : sb_hmac_sha256_state_t * list sb_byte_t :=
  let hmac := sb_hmac_sha256_init hmac k in
  let hmac := sb_hmac_sha256_update hmac input in
  sb_hmac_sha256_finish hmac output.

End HMAC.

Arguments sb_hmac_sha256_state_t : clear implicits.
Arguments sb_hmac_sha256_state_t {E}.

(** The public operations as data, to speak of any sequence of calls on
    one state object.  The output a call writes is dropped here. *)
Inductive operation :=
  | OpInit (k : list sb_byte_t)
  | OpReinit
  | OpUpdate (input : list sb_byte_t)
  | OpFinish (output : list sb_byte_t)
  | OpFinishToKey
  | OpHmac (k input output : list sb_byte_t).

Definition run_operation {E : HashEngine}
    (hmac : sb_hmac_sha256_state_t) (op : operation) : sb_hmac_sha256_state_t :=
  match op with
  | OpInit k => sb_hmac_sha256_init hmac k
  | OpReinit => sb_hmac_sha256_reinit hmac
  | OpUpdate input => sb_hmac_sha256_update hmac input
  | OpFinish output => (sb_hmac_sha256_finish hmac output).1
  | OpFinishToKey => sb_hmac_sha256_finish_to_key hmac
  | OpHmac k input output => (sb_hmac_sha256 hmac k input output).1
  end.

(** ** Reference definitions, in the words of the specification

    The hash of a byte string is what a freshly initialised engine
    returns once it has been fed the string; HMAC is the two-pass
    construction over it (RFC 2104), computed on values with no buffer
    shared between the passes. *)

Section Reference.
Context {E : HashEngine}.

Definition hash (m : list sb_byte_t) : list sb_byte_t :=
  (sb_sha256_finish (sb_sha256_update (sb_sha256_init sha_zeroed) m)).2.

(** A key no longer than a block, followed by zero bytes up to the
    block size. *)
Definition zero_extend (k : list sb_byte_t) : list sb_byte_t :=
  k ++ replicate (SB_SHA256_BLOCK_SIZE - length k) x00.

(** The key HMAC works with: the key itself, or its hash when it is
    longer than a block. *)
Definition prepare_key (k : list sb_byte_t) : list sb_byte_t :=
  if SB_SHA256_BLOCK_SIZE <? length k then hash k else k.

Definition padded (pad : sb_byte_t) (k : list sb_byte_t) : list sb_byte_t :=
  (λ b, byte_xor b pad) <$> k.

(** The outer pass: the hash of the outer-padded block-sized key
    followed by the inner digest. *)
Definition outer_hash (key_block inner_digest : list sb_byte_t) : list sb_byte_t :=
  hash (padded opad key_block ++ inner_digest).

Definition inner_hash (key_block msg : list sb_byte_t) : list sb_byte_t :=
  hash (padded ipad key_block ++ msg).

Definition hmac_reference (k msg : list sb_byte_t) : list sb_byte_t :=
  let key_block := zero_extend (prepare_key k) in
  outer_hash key_block (inner_hash key_block msg).

(** Streaming phase: the buffer holds the logical key [k] zero-extended
    and the engine has absorbed the inner-padded key and then [msg]. *)
Definition streaming (k msg : list sb_byte_t) (hmac : sb_hmac_sha256_state_t) : Prop :=
  length k ≤ SB_SHA256_BLOCK_SIZE ∧
  key hmac = zero_extend k ∧
  sha hmac =
    sb_sha256_update (sb_sha256_init sha_zeroed) (padded ipad (zero_extend k) ++ msg).

(** The buffer holds the logical key [k] zero-extended, with no pad
    mixed in. *)
Definition holds_key (k : list sb_byte_t) (hmac : sb_hmac_sha256_state_t) : Prop :=
  length k ≤ SB_SHA256_BLOCK_SIZE ∧ key hmac = zero_extend k.

End Reference.

(** ** A SHA-256 engine

    The engine of [sb_sha256.c], whose source is not at hand, is modelled
    from the specification, which describes it as an opaque engine with
    digest size 32 and block size 64 whose [init] resets to the empty
    input, whose [update] appends bytes to the pending input and whose
    [finish] returns the digest; the hash is SHA-256 (FIPS 180-4), as the
    RFC 4231 vectors of the test suite require.  The engine below keeps
    the intermediate hash value, the bytes of the block being filled and
    the number of bytes absorbed so far. *)

Module SHA256.
Local Open Scope Z_scope.

Definition wrap32 (x : Z) : Z := x mod 2 ^ 32.
Definition add32 (x y : Z) : Z := wrap32 (x + y).
Definition rotr (n x : Z) : Z :=
  Z.lor (Z.shiftr x n) (wrap32 (Z.shiftl x (32 - n))).
Definition not32 (x : Z) : Z := Z.lxor x 0xffffffff.

Definition Ch (x y z : Z) : Z := Z.lxor (Z.land x y) (Z.land (not32 x) z).
Definition Maj (x y z : Z) : Z :=
  Z.lxor (Z.lxor (Z.land x y) (Z.land x z)) (Z.land y z).
Definition Sum0 (x : Z) : Z := Z.lxor (Z.lxor (rotr 2 x) (rotr 13 x)) (rotr 22 x).
Definition Sum1 (x : Z) : Z := Z.lxor (Z.lxor (rotr 6 x) (rotr 11 x)) (rotr 25 x).
Definition sig0 (x : Z) : Z := Z.lxor (Z.lxor (rotr 7 x) (rotr 18 x)) (Z.shiftr x 3).
Definition sig1 (x : Z) : Z := Z.lxor (Z.lxor (rotr 17 x) (rotr 19 x)) (Z.shiftr x 10).

(** The constants of FIPS 180-4 are defined from the primes: the round
    constants are the first 32 bits of the fractional parts of the cube
    roots of the first 64 primes (section 4.2.2), the initial hash value
    those of the square roots of the first 8 primes (section 5.3.3). *)
Definition is_prime (n : nat) : bool :=
  forallb (λ d, negb (n mod d =? 0)%nat) (seq 2 (n - 2)).

Definition primes (count : nat) : list Z :=
  Z.of_nat <$> take count (filter (λ n, is_prime n = true) (seq 2 320)).

(** The integer cube root of [n], below [2 ^ bits], one bit at a time. *)
Fixpoint cube_root (bits : nat) (n r : Z) : Z :=
  match bits with
  | O => r
  | S bits' =>
      let r' := r + 2 ^ Z.of_nat bits' in
      cube_root bits' n (if r' * r' * r' <=? n then r' else r)
  end.

Definition cube_root_fraction (p : Z) : Z :=
  wrap32 (cube_root 36 (p * 2 ^ 96) 0).
Definition square_root_fraction (p : Z) : Z :=
  wrap32 (Z.sqrt (p * 2 ^ 64)).

Definition round_constants : list Z :=
  Eval vm_compute in cube_root_fraction <$> primes 64.

(** Eight 32-bit words: an intermediate hash value, or the working
    variables a .. h of a block. *)
Record words8 := Words8 { wa : Z; wb : Z; wc : Z; wd : Z; we : Z; wf : Z; wg : Z; wh : Z }.

Definition words8_of_list (l : list Z) : words8 :=
  Words8 (nth 0 l 0) (nth 1 l 0) (nth 2 l 0) (nth 3 l 0)
         (nth 4 l 0) (nth 5 l 0) (nth 6 l 0) (nth 7 l 0).

Definition initial_hash : words8 :=
  Eval vm_compute in words8_of_list (square_root_fraction <$> primes 8).

Definition byte_val (b : byte) : Z := Z.of_N (Byte.to_N b).
Definition val_byte (z : Z) : byte :=
  match Byte.of_N (Z.to_N (z mod 256)) with Some b => b | None => x00 end.

(** Big-endian words of a byte string (a block is 16 of them). *)
Fixpoint words_of (bs : list byte) : list Z :=
  match bs with
  | b0 :: b1 :: b2 :: b3 :: rest =>
      (byte_val b0 * 2 ^ 24 + byte_val b1 * 2 ^ 16 + byte_val b2 * 2 ^ 8 + byte_val b3)
        :: words_of rest
  | _ => []
  end.

Definition bytes_of_word (w : Z) : list byte :=
  [ val_byte (Z.shiftr w 24); val_byte (Z.shiftr w 16);
    val_byte (Z.shiftr w 8); val_byte w ].

(** Message schedule: [w] holds the sixteen words W(t) .. W(t+15); the
    function returns W(t) .. W(t+n-1). *)
Fixpoint schedule (n : nat) (w : list Z) : list Z :=
  match n, w with
  | S n', w0 :: rest =>
      let next :=
        add32 (add32 (sig1 (nth 14 w 0)) (nth 9 w 0))
              (add32 (sig0 (nth 1 w 0)) w0) in
      w0 :: schedule n' (rest ++ [next])
  | _, _ => []
  end.

(** One round on the working variables a .. h. *)
Definition round (v : words8) (kw : Z * Z) : words8 :=
  let '(Words8 a b c d e f g h) := v in
  let t1 := add32 (add32 (add32 h (Sum1 e)) (add32 (Ch e f g) kw.1)) kw.2 in
  let t2 := add32 (Sum0 a) (Maj a b c) in
  Words8 (add32 t1 t2) a b c (add32 d t1) e f g.

Definition compress (h : words8) (block : list byte) : words8 :=
  let w := schedule 64 (words_of block) in
  let v := foldl round h (zip round_constants w) in
  Words8 (add32 (wa h) (wa v)) (add32 (wb h) (wb v))
         (add32 (wc h) (wc v)) (add32 (wd h) (wd v))
         (add32 (we h) (we v)) (add32 (wf h) (wf v))
         (add32 (wg h) (wg v)) (add32 (wh h) (wh v)).

Definition digest_of (h : words8) : list byte :=
  bytes_of_word (wa h) ++ bytes_of_word (wb h) ++ bytes_of_word (wc h)
    ++ bytes_of_word (wd h) ++ bytes_of_word (we h) ++ bytes_of_word (wf h)
    ++ bytes_of_word (wg h) ++ bytes_of_word (wh h).

Record state := State {
  ihash : words8;
  pending : list byte;
  total_bytes : Z
}.

Definition absorb_byte (s : state) (b : byte) : state :=
  let buf := pending s ++ [b] in
  if (length buf =? 64)%nat
  then State (compress (ihash s) buf) [] (total_bytes s + 1)
  else State (ihash s) buf (total_bytes s + 1).

(** The state whose bytes are all zero. *)
Definition zeroed : state := State (Words8 0 0 0 0 0 0 0 0) [] 0.

(** Modelled from the spec: [sb_sha256_init] resets to the empty-input
    state. *)
Definition init (_ : state) : state := State initial_hash [] 0.

(** Modelled from the spec: [sb_sha256_update] appends bytes to the
    pending input, compressing each block as it fills. *)
Definition update (s : state) (input : list byte) : state :=
  foldl absorb_byte s input.

(** The padding of a message of [n] bytes: a one bit, zero bits up to
    56 modulo 64 bytes, and the bit length on 64 bits. *)
Definition padding (n : Z) : list byte :=
  x80 :: replicate (Z.to_nat ((55 - n) mod 64)) x00
    ++ bytes_of_word (Z.shiftr (8 * n) 32) ++ bytes_of_word (8 * n).

(** Modelled from the spec: [sb_sha256_finish] finalizes and returns the
    digest; the engine is left as the padding left it. *)
Definition finish (s : state) : state * list byte :=
  let s := update s (padding (total_bytes s)) in
  (s, digest_of (ihash s)).

End SHA256.

(** Modelled from the spec: [sb_sha256_state_t] and [sb_sha256_init],
    [sb_sha256_update], [sb_sha256_finish] of [sb_sha256.c], as the
    SHA-256 engine above. *)
#[export] Instance sha256_engine : HashEngine := {|
  sb_sha256_state_t := SHA256.state;
  sha_zeroed := SHA256.zeroed;
  sb_sha256_init := SHA256.init;
  sb_sha256_update := SHA256.update;
  sb_sha256_finish := SHA256.finish
|}.

(** ** The RFC 4231 vectors of [sb_test_hmac_sha256] *)

Definition TEST_K1 : list sb_byte_t := replicate 20 x0b.
Definition TEST_M1 : list sb_byte_t := [x48; x69; x20; x54; x68; x65; x72; x65].
Definition TEST_H1 : list sb_byte_t :=
  [ xb0; x34; x4c; x61; xd8; xdb; x38; x53; x5c; xa8; xaf; xce;
    xaf; x0b; xf1; x2b;
    x88; x1d; xc2; x00; xc9; x83; x3d; xa7; x26; xe9; x37; x6c;
    x2e; x32; xcf; xf7 ].

Definition TEST_K2 : list sb_byte_t := [x4a; x65; x66; x65].
Definition TEST_M2 : list sb_byte_t :=
  [ x77; x68; x61; x74; x20; x64; x6f; x20; x79; x61; x20; x77;
    x61; x6e; x74; x20;
    x66; x6f; x72; x20; x6e; x6f; x74; x68; x69; x6e; x67; x3f ].
Definition TEST_H2 : list sb_byte_t :=
  [ x5b; xdc; xc1; x46; xbf; x60; x75; x4e; x6a; x04; x24; x26;
    x08; x95; x75; xc7;
    x5a; x00; x3f; x08; x9d; x27; x39; x83; x9d; xec; x58; xb9;
    x64; xec; x38; x43 ].

(** Vector 6, whose key of 131 bytes is longer than a block. *)
Definition TEST_K6 : list sb_byte_t := replicate 131 xaa.
Definition TEST_M6 : list sb_byte_t :=
  [ x54; x65; x73; x74; x20; x55; x73;
    x69; x6e; x67; x20; x4c; x61; x72; x67; x65;
    x72; x20; x54; x68; x61; x6e; x20; x42; x6c; x6f; x63; x6b;
    x2d; x53; x69; x7a;
    x65; x20; x4b; x65; x79; x20; x2d; x20; x48; x61; x73; x68;
    x20; x4b; x65; x79;
    x20; x46; x69; x72; x73; x74 ].
Definition TEST_H6 : list sb_byte_t :=
  [ x60; xe4; x31; x59; x1e; xe0; xb6; x7f; x0d; x8a; x26; xaa;
    xcb; xf5; xb7; x7f;
    x8e; x0b; xc6; x21; x37; x28; xc5; x14; x05; x46; x04; x0f;
    x0e; xe3; x7f; x54 ].

(** The other vectors of the test: 3 and 4 with short keys, 5 with a
    MAC truncated to 16 bytes, 7 with the key of vector 6. *)
Definition TEST_K3 : list sb_byte_t := replicate 20 xaa.
Definition TEST_M3 : list sb_byte_t := replicate 50 xdd.
Definition TEST_H3 : list sb_byte_t :=
  [ x77; x3e; xa9; x1e; x36; x80; x0e; x46; x85; x4d; xb8; xeb;
    xd0; x91; x81; xa7; x29; x59; x09; x8b; x3e; xf8; xc1; x22;
    xd9; x63; x55; x14; xce; xd5; x65; xfe ].
Definition TEST_K4 : list sb_byte_t :=
  [ x01; x02; x03; x04; x05; x06; x07; x08; x09; x0a; x0b; x0c;
    x0d; x0e; x0f; x10; x11; x12; x13; x14; x15; x16; x17; x18;
    x19 ].
Definition TEST_M4 : list sb_byte_t := replicate 50 xcd.
Definition TEST_H4 : list sb_byte_t :=
  [ x82; x55; x8a; x38; x9a; x44; x3c; x0e; xa4; xcc; x81; x98;
    x99; xf2; x08; x3a; x85; xf0; xfa; xa3; xe5; x78; xf8; x07;
    x7a; x2e; x3f; xf4; x67; x29; x66; x5b ].
Definition TEST_K5 : list sb_byte_t := replicate 20 x0c.
Definition TEST_M5 : list sb_byte_t :=
  [ x54; x65; x73; x74; x20; x57; x69; x74; x68; x20; x54; x72;
    x75; x6e; x63; x61; x74; x69; x6f; x6e ].
Definition TEST_H5 : list sb_byte_t :=
  [ xa3; xb6; x16; x74; x73; x10; x0e; xe0; x6e; x0c; x79; x6c;
    x29; x55; x55; x2b ].
Definition TEST_M7 : list sb_byte_t :=
  [ x54; x68; x69; x73; x20; x69; x73; x20; x61; x20; x74; x65;
    x73; x74; x20; x75; x73; x69; x6e; x67; x20; x61; x20; x6c;
    x61; x72; x67; x65; x72; x20; x74; x68; x61; x6e; x20; x62;
    x6c; x6f; x63; x6b; x2d; x73; x69; x7a; x65; x20; x6b; x65;
    x79; x20; x61; x6e; x64; x20; x61; x20; x6c; x61; x72; x67;
    x65; x72; x20; x74; x68; x61; x6e; x20; x62; x6c; x6f; x63;
    x6b; x2d; x73; x69; x7a; x65; x20; x64; x61; x74; x61; x2e;
    x20; x54; x68; x65; x20; x6b; x65; x79; x20; x6e; x65; x65;
    x64; x73; x20; x74; x6f; x20; x62; x65; x20; x68; x61; x73;
    x68; x65; x64; x20; x62; x65; x66; x6f; x72; x65; x20; x62;
    x65; x69; x6e; x67; x20; x75; x73; x65; x64; x20; x62; x79;
    x20; x74; x68; x65; x20; x48; x4d; x41; x43; x20; x61; x6c;
    x67; x6f; x72; x69; x74; x68; x6d; x2e ].
Definition TEST_H7 : list sb_byte_t :=
  [ x9b; x09; xff; xa7; x1b; x94; x2f; xcb; x27; x63; x5f; xbc;
    xd5; xb0; xe9; x44; xbf; xdc; x63; x64; x4f; x07; x13; x93;
    x8a; x7f; x51; x53; x5c; x3a; x35; xe2 ].
Definition TEST_K7 : list sb_byte_t := TEST_K6.

(** ** The self-test [sb_test_hmac_sha256]

    The macro [SB_TEST_ASSERT_EQUAL] comes from [sb_test.h], which is not
    at hand: it is a parameter of the test, a comparison of the buffer
    [h] with the expected bytes.  A failed assertion ends the test with
    0; the test returns 1 after the seventh run. *)

(** [SB_RUN_TEST(n)] on the locals [hmac] and [h] of the test. *)
Definition SB_RUN_TEST {E : HashEngine}
    (SB_TEST_ASSERT_EQUAL : list sb_byte_t → list sb_byte_t → bool)
    (locals : sb_hmac_sha256_state_t * list sb_byte_t)
    (vector : list sb_byte_t * list sb_byte_t * list sb_byte_t)
  : option (sb_hmac_sha256_state_t * list sb_byte_t) :=
  let '(hmac, h) := locals in
  let '(TEST_K, TEST_M, TEST_H) := vector in
  let hmac := sb_hmac_sha256_init hmac TEST_K in
  let hmac := sb_hmac_sha256_update hmac TEST_M in
  let '(hmac, h) := sb_hmac_sha256_finish hmac h in
  if SB_TEST_ASSERT_EQUAL h TEST_H then Some (hmac, h) else None.

Definition test_vectors : list (list sb_byte_t * list sb_byte_t * list sb_byte_t) :=
  [ (TEST_K1, TEST_M1, TEST_H1); (TEST_K2, TEST_M2, TEST_H2);
    (TEST_K3, TEST_M3, TEST_H3); (TEST_K4, TEST_M4, TEST_H4);
    (TEST_K5, TEST_M5, TEST_H5); (TEST_K6, TEST_M6, TEST_H6);
    (TEST_K7, TEST_M7, TEST_H7) ].

(** The locals are not initialised by the test: they are arguments. *)
Definition sb_test_hmac_sha256 {E : HashEngine}
    (SB_TEST_ASSERT_EQUAL : list sb_byte_t → list sb_byte_t → bool)
    (hmac : sb_hmac_sha256_state_t) (h : list sb_byte_t) : bool :=
  match
    foldl (λ locals vector,
             match locals with
             | Some locals => SB_RUN_TEST SB_TEST_ASSERT_EQUAL locals vector
             | None => None
             end)
          (Some (hmac, h)) test_vectors
  with
  | Some _ => true
  | None => false
  end.

(** [memcmp(v, e, sizeof(e)) == 0]: the buffer [v] starts with the bytes
    of [e]. *)
Fixpoint memcmp_prefix (v e : list sb_byte_t) {struct e} : bool :=
  match e, v with
  | [], _ => true
  | b :: e', a :: v' => Byte.eqb a b && memcmp_prefix v' e'
  | _ :: _, [] => false
  end.

(** * Properties *)

(** ** Bytes *)

Lemma lxor_byte_bounded (a b : N) : (a ≤ 255 → b ≤ 255 → N.lxor a b ≤ 255)%N.
Proof.
  intros Ha Hb.
  destruct (N.eq_dec (N.lxor a b) 0%N) as [->|Hnz]; [lia|].
  assert (N.log2 (N.lxor a b) < 8)%N as Hlog.
  { eapply N.le_lt_trans; [apply N.log2_lxor|].
    apply N.max_lub_lt.
    - destruct (N.eq_dec a 0%N) as [->|?]; [reflexivity|].
      apply N.log2_lt_pow2; lia.
    - destruct (N.eq_dec b 0%N) as [->|?]; [reflexivity|].
      apply N.log2_lt_pow2; lia. }
  apply N.log2_lt_pow2 in Hlog; lia.
Qed.

(** [byte_xor] is the bitwise exclusive or of the two values. *)
Lemma byte_xor_to_N (a b : sb_byte_t) :
  Byte.to_N (byte_xor a b) = N.lxor (Byte.to_N a) (Byte.to_N b).
Proof.
  unfold byte_xor.
  destruct (Byte.of_N _) as [c|] eqn:Hc.
  - by apply Byte.to_of_N.
  - apply Byte.of_N_None_iff in Hc.
    pose proof (lxor_byte_bounded _ _ (Byte.to_N_bounded a) (Byte.to_N_bounded b)).
    lia.
Qed.

Lemma byte_to_N_inj (a b : sb_byte_t) : Byte.to_N a = Byte.to_N b → a = b.
Proof.
  intros Hab. pose proof (Byte.of_to_N a) as Ha.
  rewrite Hab, Byte.of_to_N in Ha. congruence.
Qed.

Lemma byte_xor_involutive (a pad : sb_byte_t) : byte_xor (byte_xor a pad) pad = a.
Proof.
  apply byte_to_N_inj. rewrite !byte_xor_to_N.
  by rewrite N.lxor_assoc, N.lxor_nilpotent, N.lxor_0_r.
Qed.

Lemma byte_xor_zero (pad : sb_byte_t) : byte_xor x00 pad = pad.
Proof. apply byte_to_N_inj. by rewrite byte_xor_to_N. Qed.

(** ** Buffers *)

Lemma length_memcpy dst off src :
  off + length src ≤ length dst → length (memcpy dst off src) = length dst.
Proof.
  intros Hle. unfold memcpy.
  rewrite !length_app, length_take, length_drop. lia.
Qed.

Lemma memcpy_whole dst src :
  length src = length dst → memcpy dst 0 src = src.
Proof.
  intros Hlen. unfold memcpy.
  rewrite take_0, drop_ge by lia. by rewrite app_nil_r.
Qed.

Lemma memcpy_front dst src : memcpy dst 0 src = src ++ drop (length src) dst.
Proof. reflexivity. Qed.

Lemma take_app_exact {A} (l1 l2 : list A) (n : nat) :
  length l1 = n → take n (l1 ++ l2) = l1.
Proof. intros <-. apply take_app_length. Qed.

Lemma drop_app_exact {A} (l1 l2 : list A) (n : nat) :
  length l1 = n → drop n (l1 ++ l2) = l2.
Proof. intros <-. apply drop_app_length. Qed.

(** Overwriting the first or the second part of a two-part buffer. *)
Lemma memcpy_first (front back src : list sb_byte_t) :
  length src = length front → memcpy (front ++ back) 0 src = src ++ back.
Proof.
  intros Hlen. rewrite memcpy_front. by rewrite drop_app_exact.
Qed.

Lemma memcpy_second (front back src : list sb_byte_t) (n : nat) :
  length front = n → length src = length back →
  memcpy (front ++ back) n src = front ++ src.
Proof.
  intros Hn Hlen. unfold memcpy.
  rewrite take_app_exact by done.
  rewrite drop_ge, app_nil_r; [done|].
  rewrite length_app. lia.
Qed.

(** Reading the first or the second part of a two-part buffer. *)
Lemma bytes_at_first (front back : list sb_byte_t) (n : nat) :
  length front = n → bytes_at (front ++ back) 0 n = front.
Proof. intros Hn. unfold bytes_at. by rewrite drop_0, take_app_exact. Qed.

Lemma bytes_at_second (front back : list sb_byte_t) (n m : nat) :
  length front = n → length back = m → bytes_at (front ++ back) n m = back.
Proof.
  intros Hn Hm. unfold bytes_at. rewrite drop_app_exact by done.
  apply take_ge. lia.
Qed.

Lemma bytes_at_whole (buf : list sb_byte_t) :
  bytes_at buf 0 (length buf) = buf.
Proof. unfold bytes_at. by rewrite drop_0, firstn_all. Qed.

Lemma alter_out_of_range {A} (f : A → A) (l : list A) (n : nat) :
  length l ≤ n → alter f n l = l.
Proof.
  revert n. induction l as [|x l IH]; intros [|n] Hn; simpl in *;
    try done; try lia.
  f_equal. apply IH. lia.
Qed.

(** The loop of the pad toggle, on a buffer of any length: the first [n]
    bytes are mapped, the others are left alone. *)
Lemma alter_loop {A} (f : A → A) (n : nat) (l : list A) :
  foldl (λ k i, alter f i k) l (seq 0 n) = (f <$> take n l) ++ drop n l.
Proof.
  induction n as [|n IH].
  - simpl. by rewrite drop_0.
  - rewrite seq_S, foldl_snoc, IH. simpl.
    destruct (decide (n < length l)) as [Hlt|Hge].
    + destruct (lookup_lt_is_Some_2 l n Hlt) as [x Hx].
      rewrite (take_S_r _ _ _ Hx), (drop_S _ _ _ Hx), fmap_app.
      rewrite alter_app_r_alt by (rewrite length_fmap, length_take; lia).
      rewrite length_fmap, length_take.
      replace (n - n `min` length l) with 0 by lia.
      simpl. by rewrite <- app_assoc.
    + rewrite !take_ge, !drop_ge, !app_nil_r by lia.
      apply alter_out_of_range. rewrite length_fmap. lia.
Qed.

(** ** The pad toggle *)

Section PadToggle.
Context {E : HashEngine}.
Implicit Types (hmac : sb_hmac_sha256_state_t) (pad : sb_byte_t).

Lemma hmac_state_eq hmac hmac' :
  sha hmac = sha hmac' → key hmac = key hmac' → hmac = hmac'.
Proof. destruct hmac, hmac'. cbn [sha key]. congruence. Qed.

Lemma key_pad_sha hmac pad : sha (sb_hmac_sha256_key_pad hmac pad) = sha hmac.
Proof. reflexivity. Qed.

(** Whatever the buffer, the toggle maps its first block and leaves
    the rest. *)
Lemma key_pad_key hmac pad :
  key (sb_hmac_sha256_key_pad hmac pad) =
    padded pad (take SB_SHA256_BLOCK_SIZE (key hmac))
      ++ drop SB_SHA256_BLOCK_SIZE (key hmac).
Proof. unfold sb_hmac_sha256_key_pad, padded, with_key. cbn [key]. apply alter_loop. Qed.

Lemma key_pad_block hmac pad :
  length (key hmac) = SB_SHA256_BLOCK_SIZE →
  key (sb_hmac_sha256_key_pad hmac pad) = padded pad (key hmac).
Proof.
  intros Hlen. rewrite key_pad_key.
  rewrite take_ge, drop_ge, app_nil_r by lia. done.
Qed.

Lemma length_key_pad hmac pad :
  length (key (sb_hmac_sha256_key_pad hmac pad)) = length (key hmac).
Proof.
  rewrite key_pad_key. unfold padded.
  rewrite length_app, length_fmap, length_take, length_drop. lia.
Qed.

Lemma padded_involutive pad (l : list sb_byte_t) : padded pad (padded pad l) = l.
Proof.
  unfold padded. rewrite <- list_fmap_compose.
  rewrite <- (list_fmap_id l) at 2.
  apply list_fmap_ext. intros _ b _. simpl. apply byte_xor_involutive.
Qed.

Lemma length_padded pad (l : list sb_byte_t) : length (padded pad l) = length l.
Proof. apply length_fmap. Qed.

Lemma padded_app pad (l1 l2 : list sb_byte_t) :
  padded pad (l1 ++ l2) = padded pad l1 ++ padded pad l2.
Proof. apply fmap_app. Qed.

Lemma padded_zeros pad n : padded pad (replicate n x00) = replicate n pad.
Proof.
  unfold padded. rewrite fmap_replicate. by rewrite byte_xor_zero.
Qed.

Lemma key_pad_key_twice hmac pad :
  key (sb_hmac_sha256_key_pad (sb_hmac_sha256_key_pad hmac pad) pad) = key hmac.
Proof.
  rewrite (key_pad_key (sb_hmac_sha256_key_pad _ _)), (key_pad_key hmac).
  set (front := padded pad (take SB_SHA256_BLOCK_SIZE (key hmac))).
  set (back := drop SB_SHA256_BLOCK_SIZE (key hmac)).
  destruct (decide (SB_SHA256_BLOCK_SIZE ≤ length (key hmac))) as [Hle|Hgt].
  - assert (length front = SB_SHA256_BLOCK_SIZE) as Hfront.
    { unfold front. rewrite length_padded, length_take. lia. }
    rewrite (take_app_exact front back), (drop_app_exact front back) by done.
    unfold front. rewrite padded_involutive. apply take_drop.
  - assert (back = []) as -> by (apply drop_ge; lia).
    rewrite app_nil_r.
    rewrite (take_ge front), (drop_ge front), app_nil_r
      by (unfold front; rewrite length_padded, length_take; lia).
    unfold front. rewrite padded_involutive. apply take_ge. lia.
Qed.

Lemma key_pad_twice hmac pad :
  sb_hmac_sha256_key_pad (sb_hmac_sha256_key_pad hmac pad) pad = hmac.
Proof.
  apply hmac_state_eq; [reflexivity | apply key_pad_key_twice].
Qed.

Lemma key_pad_with_sha hmac pad s :
  sb_hmac_sha256_key_pad (with_sha hmac s) pad
  = with_sha (sb_hmac_sha256_key_pad hmac pad) s.
Proof. reflexivity. Qed.

End PadToggle.

(** ** The operations, with the toggles resolved *)

Section Unfold.
Context {E : HashEngine}.
Implicit Types (hmac : sb_hmac_sha256_state_t) (pad : sb_byte_t).

Ltac state_simpl := rewrite ?key_pad_with_sha; cbn [sha key with_sha with_key fst snd].

Lemma key_pad_bytes hmac pad :
  length (key hmac) = SB_SHA256_BLOCK_SIZE →
  bytes_at (key (sb_hmac_sha256_key_pad hmac pad)) 0 SB_SHA256_BLOCK_SIZE
  = padded pad (key hmac).
Proof.
  intros Hlen. rewrite key_pad_block by done.
  rewrite <- Hlen, <- (length_padded pad). apply bytes_at_whole.
Qed.

Lemma reinit_unfold hmac :
  sb_hmac_sha256_reinit hmac =
    with_sha hmac
      (sb_sha256_update (sb_sha256_init (sha hmac))
         (bytes_at (key (sb_hmac_sha256_key_pad hmac ipad)) 0 SB_SHA256_BLOCK_SIZE)).
Proof.
  unfold sb_hmac_sha256_reinit. cbv zeta.
  apply hmac_state_eq; state_simpl; [reflexivity|].
  apply key_pad_key_twice.
Qed.

Lemma finish_unfold hmac output :
  sb_hmac_sha256_finish hmac output =
    let inner := sb_sha256_finish (sha hmac) in
    let out1 := memcpy output 0 inner.2 in
    let outer :=
      sb_sha256_finish
        (sb_sha256_update
           (sb_sha256_update (sb_sha256_init inner.1)
              (bytes_at (key (sb_hmac_sha256_key_pad hmac opad)) 0 SB_SHA256_BLOCK_SIZE))
           (bytes_at out1 0 SB_SHA256_SIZE)) in
    (with_sha hmac outer.1, memcpy out1 0 outer.2).
Proof.
  unfold sb_hmac_sha256_finish. cbv zeta.
  destruct (sb_sha256_finish (sha hmac)) as [s d]. state_simpl.
  destruct (sb_sha256_finish _) as [s' d']. state_simpl.
  f_equal. apply hmac_state_eq; state_simpl; [reflexivity|].
  apply key_pad_key_twice.
Qed.

End Unfold.

(** ** The HMAC operations over an engine that honours its contract *)

Section Contract.
Context {E : HashEngine}.
Implicit Types (hmac : sb_hmac_sha256_state_t) (pad : sb_byte_t).
Implicit Types (k msg input output : list sb_byte_t).

(** [init] resets the engine to the empty input, whatever it held. *)
Hypothesis init_resets : ∀ s s', sb_sha256_init s = sb_sha256_init s'.
(** Two updates are one update with the concatenation. *)
Hypothesis update_chunks : ∀ s a b,
  sb_sha256_update (sb_sha256_update s a) b = sb_sha256_update s (a ++ b).
(** [finish] writes a digest of exactly [SB_SHA256_SIZE] bytes. *)
Hypothesis finish_size : ∀ s, length (sb_sha256_finish s).2 = SB_SHA256_SIZE.

Ltac state_simpl :=
  rewrite ?key_pad_with_sha, ?key_pad_sha; cbn [sha key with_sha with_key fst snd].

Lemma length_hash m : length (hash m) = SB_SHA256_SIZE.
Proof. apply finish_size. Qed.

Lemma length_zero_extend k :
  length k ≤ SB_SHA256_BLOCK_SIZE → length (zero_extend k) = SB_SHA256_BLOCK_SIZE.
Proof.
  intros Hk. unfold zero_extend. rewrite length_app, length_replicate. lia.
Qed.

Lemma zero_extend_digest_sized k :
  length k = SB_SHA256_SIZE → zero_extend k = k ++ replicate SB_SHA256_SIZE x00.
Proof. intros Hk. unfold zero_extend. by rewrite Hk. Qed.

Lemma length_prepare_key k : length (prepare_key k) ≤ SB_SHA256_BLOCK_SIZE.
Proof.
  unfold prepare_key. destruct (Nat.ltb_spec SB_SHA256_BLOCK_SIZE (length k)).
  - rewrite length_hash. unfold SB_SHA256_SIZE, SB_SHA256_BLOCK_SIZE. lia.
  - done.
Qed.

Lemma memcpy_zeroed k :
  memcpy (replicate SB_SHA256_BLOCK_SIZE x00) 0 k = zero_extend k.
Proof. unfold memcpy, zero_extend. by rewrite take_0, drop_replicate. Qed.

(** What [init] hands over to [reinit]. *)
Lemma init_unfold hmac k :
  sb_hmac_sha256_init hmac k =
    sb_hmac_sha256_reinit
      {| sha := if SB_SHA256_BLOCK_SIZE <? length k
                then (sb_sha256_finish
                        (sb_sha256_update (sb_sha256_init sha_zeroed) k)).1
                else sha_zeroed;
         key := zero_extend (prepare_key k) |}.
Proof.
  unfold sb_hmac_sha256_init, prepare_key, hash. cbv zeta.
  destruct (SB_SHA256_BLOCK_SIZE <? length k).
  - unfold hmac_zeroed. state_simpl.
    destruct (sb_sha256_finish _) as [s d]. state_simpl.
    by rewrite memcpy_zeroed.
  - unfold hmac_zeroed, with_key. cbn [sha key]. by rewrite memcpy_zeroed.
Qed.

Lemma reinit_key hmac : key (sb_hmac_sha256_reinit hmac) = key hmac.
Proof. by rewrite reinit_unfold. Qed.

Lemma reinit_streaming k hmac :
  holds_key k hmac → streaming k [] (sb_hmac_sha256_reinit hmac).
Proof.
  intros [Hlen Hkey]. split; [done|]. split.
  - by rewrite reinit_key.
  - rewrite reinit_unfold. state_simpl.
    rewrite key_pad_bytes by (rewrite Hkey; by apply length_zero_extend).
    rewrite app_nil_r, Hkey. f_equal. apply init_resets.
Qed.

Lemma init_holds_key hmac k :
  holds_key (prepare_key k) (sb_hmac_sha256_init hmac k).
Proof.
  split; [apply length_prepare_key|].
  by rewrite init_unfold, reinit_key.
Qed.

Lemma init_streaming hmac k :
  streaming (prepare_key k) [] (sb_hmac_sha256_init hmac k).
Proof.
  rewrite init_unfold. apply reinit_streaming.
  split; [apply length_prepare_key|done].
Qed.

Lemma update_streaming k msg hmac input :
  streaming k msg hmac → streaming k (msg ++ input) (sb_hmac_sha256_update hmac input).
Proof.
  intros (Hlen & Hkey & Hsha). split; [done|]. split; [done|].
  unfold sb_hmac_sha256_update. state_simpl.
  by rewrite Hsha, update_chunks, <- app_assoc.
Qed.

(** *** Finish *)

Lemma finish_key hmac output :
  key (sb_hmac_sha256_finish hmac output).1 = key hmac.
Proof. by rewrite finish_unfold. Qed.

Lemma memcpy_digest output d :
  length d = SB_SHA256_SIZE →
  memcpy output 0 d = d ++ drop SB_SHA256_SIZE output.
Proof. intros Hd. by rewrite memcpy_front, Hd. Qed.

(** The scratch use of the output buffer: the inner digest is read back
    from it whole, and the MAC then takes its place. *)
Lemma finish_output hmac output :
  (sb_hmac_sha256_finish hmac output).2 =
    (sb_sha256_finish
       (sb_sha256_update
          (sb_sha256_update (sb_sha256_init (sb_sha256_finish (sha hmac)).1)
             (bytes_at (key (sb_hmac_sha256_key_pad hmac opad)) 0 SB_SHA256_BLOCK_SIZE))
          (sb_sha256_finish (sha hmac)).2)).2
    ++ drop SB_SHA256_SIZE output.
Proof.
  rewrite finish_unfold. cbv zeta. cbn [snd].
  rewrite (memcpy_digest output) by apply finish_size.
  unfold bytes_at at 2. rewrite drop_0, take_app_exact by apply finish_size.
  rewrite memcpy_digest by apply finish_size.
  by rewrite drop_app_exact by apply finish_size.
Qed.

Lemma finish_state hmac output output' :
  (sb_hmac_sha256_finish hmac output).1 = (sb_hmac_sha256_finish hmac output').1.
Proof.
  rewrite !finish_unfold. cbv zeta. cbn [fst].
  rewrite !memcpy_digest by apply finish_size.
  unfold bytes_at at 2 4. by rewrite !drop_0, !take_app_exact by apply finish_size.
Qed.

Lemma finish_mac hmac output :
  length (key hmac) = SB_SHA256_BLOCK_SIZE →
  take SB_SHA256_SIZE (sb_hmac_sha256_finish hmac output).2
  = outer_hash (key hmac) (sb_sha256_finish (sha hmac)).2.
Proof.
  intros Hlen. rewrite finish_output, take_app_exact by apply finish_size.
  rewrite key_pad_bytes by done. unfold outer_hash, hash.
  rewrite update_chunks. do 3 f_equal. apply init_resets.
Qed.

Lemma finish_streaming k msg hmac output :
  streaming k msg hmac →
  take SB_SHA256_SIZE (sb_hmac_sha256_finish hmac output).2
  = outer_hash (zero_extend k) (inner_hash (zero_extend k) msg).
Proof.
  intros (Hlen & Hkey & Hsha).
  rewrite finish_mac by (rewrite Hkey; by apply length_zero_extend).
  by rewrite Hkey, Hsha.
Qed.

(** *** Key collapse *)

(** The buffer after each step of [sb_hmac_sha256_finish_to_key], for
    any two halves [a] and [b] of the key buffer. *)
Lemma finish_to_key_unfold hmac a b :
  key hmac = a ++ b → length a = SB_SHA256_SIZE → length b = SB_SHA256_SIZE →
  let inner := sb_sha256_finish (sha hmac) in
  let outer :=
    sb_sha256_finish
      (sb_sha256_update
         (sb_sha256_update
            (sb_sha256_update (sb_sha256_init inner.1) (padded opad a))
            (replicate SB_SHA256_SIZE opad))
         inner.2) in
  sb_hmac_sha256_finish_to_key hmac =
    sb_hmac_sha256_reinit
      {| sha := outer.1; key := outer.2 ++ replicate SB_SHA256_SIZE x00 |}.
Proof.
  intros Hkey Ha Hb. cbv zeta.
  unfold sb_hmac_sha256_finish_to_key. cbv zeta. state_simpl.
  pose proof (finish_size (sha hmac)) as Hd.
  destruct (sb_sha256_finish (sha hmac)) as [s d]. state_simpl.
  cbn [snd] in Hd.
  assert (length (key hmac) = SB_SHA256_BLOCK_SIZE) as Hlen.
  { rewrite Hkey, length_app, Ha, Hb. reflexivity. }
  rewrite key_pad_block by done.
  rewrite Hkey, padded_app.
  rewrite memcpy_second by (rewrite ?length_padded; congruence).
  rewrite bytes_at_first by (by rewrite length_padded).
  unfold memset.
  rewrite memcpy_first by (by rewrite length_padded, length_replicate).
  rewrite bytes_at_first by apply length_replicate.
  rewrite bytes_at_second by (done || apply length_replicate).
  pose proof (finish_size
    (sb_sha256_update
       (sb_sha256_update (sb_sha256_update (sb_sha256_init s) (padded opad a))
          (replicate SB_SHA256_SIZE opad)) d)) as Hd'.
  destruct (sb_sha256_finish _) as [s' d']. state_simpl. cbn [snd] in Hd'.
  rewrite memcpy_first by (by rewrite length_replicate).
  rewrite memcpy_second by (done || by rewrite length_replicate).
  reflexivity.
Qed.

(** With the second half of the buffer zero, the three updates of the
    key collapse feed the engine the outer-padded block and the inner
    digest, as the two updates of [sb_hmac_sha256_finish] do. *)
Lemma finish_to_key_value hmac a :
  key hmac = a ++ replicate SB_SHA256_SIZE x00 → length a = SB_SHA256_SIZE →
  ∃ s,
    sb_hmac_sha256_finish_to_key hmac =
      sb_hmac_sha256_reinit
        {| sha := s;
           key := outer_hash (key hmac) (sb_sha256_finish (sha hmac)).2
                    ++ replicate SB_SHA256_SIZE x00 |}.
Proof.
  intros Hkey Ha.
  pose proof (finish_to_key_unfold hmac a (replicate SB_SHA256_SIZE x00)
                Hkey Ha (length_replicate _ _)) as Hun.
  cbv zeta in Hun. rewrite Hun. clear Hun.
  rewrite !update_chunks, app_assoc.
  rewrite (init_resets _ sha_zeroed).
  unfold outer_hash, hash. rewrite Hkey, padded_app, padded_zeros.
  by eexists.
Qed.

Lemma reinit_depends_on_key hmac hmac' :
  key hmac = key hmac' → sb_hmac_sha256_reinit hmac = sb_hmac_sha256_reinit hmac'.
Proof.
  intros Hkey. rewrite !reinit_unfold.
  apply hmac_state_eq; cbn [sha key with_sha]; [|done].
  rewrite !key_pad_key, Hkey. f_equal. apply init_resets.
Qed.

Lemma holds_key_length k hmac :
  holds_key k hmac → length (key hmac) = SB_SHA256_BLOCK_SIZE.
Proof. intros [Hlen ->]. by apply length_zero_extend. Qed.

Lemma holds_key_halves k hmac :
  holds_key k hmac →
  key hmac = take SB_SHA256_SIZE (key hmac) ++ drop SB_SHA256_SIZE (key hmac)
  ∧ length (take SB_SHA256_SIZE (key hmac)) = SB_SHA256_SIZE
  ∧ length (drop SB_SHA256_SIZE (key hmac)) = SB_SHA256_SIZE.
Proof.
  intros Hk%holds_key_length.
  rewrite take_drop, length_take, length_drop, Hk.
  unfold SB_SHA256_SIZE, SB_SHA256_BLOCK_SIZE. repeat split; lia.
Qed.

(** A logical key of at most [SB_SHA256_SIZE] bytes leaves the second
    half of the buffer zero. *)
Lemma zero_extend_short k :
  length k ≤ SB_SHA256_SIZE →
  zero_extend k =
    (k ++ replicate (SB_SHA256_SIZE - length k) x00) ++ replicate SB_SHA256_SIZE x00.
Proof.
  intros Hk. unfold zero_extend. rewrite <- app_assoc, <- replicate_add.
  do 2 f_equal. unfold SB_SHA256_SIZE, SB_SHA256_BLOCK_SIZE in *. lia.
Qed.

Lemma holds_digest_sized d hmac :
  length d = SB_SHA256_SIZE →
  key hmac = d ++ replicate SB_SHA256_SIZE x00 → holds_key d hmac.
Proof.
  intros Hd Hkey. unfold holds_key. split.
  - unfold SB_SHA256_SIZE, SB_SHA256_BLOCK_SIZE in *. lia.
  - by rewrite zero_extend_digest_sized.
Qed.

Lemma update_fold hmac m ms :
  foldl sb_hmac_sha256_update (sb_hmac_sha256_update hmac m) ms
  = sb_hmac_sha256_update hmac (m ++ concat ms).
Proof.
  revert m. induction ms as [|m' ms IH]; intros m; cbn [foldl concat].
  - by rewrite app_nil_r.
  - rewrite app_assoc, <- IH. f_equal.
    unfold sb_hmac_sha256_update. cbn [sha key with_sha].
    by rewrite update_chunks.
Qed.

(** The one-shot function computes HMAC as RFC 2104 defines it. *)
Lemma sb_hmac_sha256_reference hmac k input output :
  take SB_SHA256_SIZE (sb_hmac_sha256 hmac k input output).2 = hmac_reference k input.
Proof.
  unfold sb_hmac_sha256. cbv zeta.
  apply finish_streaming, (update_streaming _ [] _ input), init_streaming.
Qed.

(** The size of the key buffer is an invariant of every operation. *)
Lemma run_operation_length hmac op :
  length (key hmac) = SB_SHA256_BLOCK_SIZE →
  length (key (run_operation hmac op)) = SB_SHA256_BLOCK_SIZE.
Proof.
  intros Hlen. destruct op as [k| |input|output| |k input output]; cbn [run_operation].
  - apply (holds_key_length _ _ (init_holds_key hmac k)).
  - by rewrite reinit_key.
  - done.
  - by rewrite finish_key.
  - assert (holds_key (key hmac) hmac) as Hk.
    { split; [lia|]. unfold zero_extend.
      rewrite Hlen, Nat.sub_diag. cbn [replicate]. by rewrite app_nil_r. }
    destruct (holds_key_halves _ _ Hk) as (Hsplit & Ha & Hb).
    pose proof (finish_to_key_unfold hmac _ _ Hsplit Ha Hb) as Hun.
    cbv zeta in Hun. rewrite Hun, reinit_key. cbn [key].
    rewrite length_app, length_replicate, finish_size. reflexivity.
  - unfold sb_hmac_sha256. cbv zeta. rewrite finish_key.
    apply (holds_key_length _ _ (init_holds_key hmac k)).
Qed.

Lemma run_operations_length hmac ops :
  length (key hmac) = SB_SHA256_BLOCK_SIZE →
  length (key (foldl run_operation hmac ops)) = SB_SHA256_BLOCK_SIZE.
Proof.
  revert hmac. induction ops as [|op ops IH]; intros hmac Hlen; cbn [foldl].
  - done.
  - by apply IH, run_operation_length.
Qed.

(** *** The claims about the streaming interface *)

(** C1.  Key collapse.  From a state in streaming phase whose logical
    key [k] has exactly [SB_SHA256_SIZE] bytes (so that the buffer is
    [k] followed by as many zero bytes), [sb_hmac_sha256_finish_to_key]
    leaves the buffer holding a new key of [SB_SHA256_SIZE] bytes
    followed by zeros; the new key is the outer hash of the outer-padded
    key block followed by the inner digest, which is also the MAC that
    [sb_hmac_sha256_finish] writes from the same state with buffers of
    its own; and the state is the one [sb_hmac_sha256_init] produces for
    the new key, in streaming phase with nothing absorbed. *)
Theorem finish_to_key_collapses k msg hmac output :
  length k = SB_SHA256_SIZE →
  streaming k msg hmac →
  let new_key := outer_hash (zero_extend k) (inner_hash (zero_extend k) msg) in
  length new_key = SB_SHA256_SIZE
  ∧ key (sb_hmac_sha256_finish_to_key hmac)
    = new_key ++ replicate SB_SHA256_SIZE x00
  ∧ take SB_SHA256_SIZE (sb_hmac_sha256_finish hmac output).2 = new_key
  ∧ streaming new_key [] (sb_hmac_sha256_finish_to_key hmac)
  ∧ sb_hmac_sha256_finish_to_key hmac = sb_hmac_sha256_init hmac new_key.
Proof.
  intros Hk Hstr new_key.
  pose proof Hstr as (Hlen & Hkey & Hsha).
  rewrite zero_extend_digest_sized in Hkey by done.
  destruct (finish_to_key_value hmac k Hkey Hk) as [s Hcollapse].
  assert (outer_hash (key hmac) (sb_sha256_finish (sha hmac)).2 = new_key) as Hnew.
  { unfold new_key, inner_hash, hash.
    by rewrite Hsha, Hkey, zero_extend_digest_sized. }
  rewrite Hnew in Hcollapse.
  assert (length new_key = SB_SHA256_SIZE) as Hsize by apply length_hash.
  split; [done|]. split; [by rewrite Hcollapse, reinit_key|].
  split; [by apply finish_streaming|]. split.
  - rewrite Hcollapse. apply reinit_streaming. by apply holds_digest_sized.
  - rewrite Hcollapse, init_unfold. apply reinit_depends_on_key.
    cbn [key]. unfold prepare_key.
    rewrite Hsize, zero_extend_digest_sized by done. reflexivity.
Qed.

(** C3.  Long keys.  For a key longer than a block, the one-shot HMAC
    of the key and of its hash are the same computation: same MAC, same
    final state; and [sb_hmac_sha256_init] leaves the buffer holding the
    hash of the key followed by zeros up to the block size. *)
Theorem long_key_equivalence hmac hmac' k input output :
  SB_SHA256_BLOCK_SIZE < length k →
  sb_hmac_sha256 hmac k input output = sb_hmac_sha256 hmac' (hash k) input output
  ∧ key (sb_hmac_sha256_init hmac k)
    = hash k ++ replicate (SB_SHA256_BLOCK_SIZE - SB_SHA256_SIZE) x00.
Proof.
  intros Hlong.
  assert (prepare_key k = hash k) as Hprep.
  { unfold prepare_key. by apply Nat.ltb_lt in Hlong as ->. }
  assert (prepare_key (hash k) = hash k) as Hprep'.
  { unfold prepare_key. rewrite length_hash. reflexivity. }
  split.
  - unfold sb_hmac_sha256. cbv zeta. do 2 f_equal.
    rewrite !init_unfold. apply reinit_depends_on_key.
    cbn [key]. by rewrite Hprep, Hprep'.
  - rewrite init_unfold, reinit_key. cbn [key].
    rewrite Hprep. unfold zero_extend. by rewrite length_hash.
Qed.

(** C4.  Chunk independence.  Streaming the chunks [m1], ..., [mk] one
    update call each and then finishing gives the same MAC (and the same
    state) as one update call with their concatenation, for an engine
    whose own update is chunk-independent. *)
Theorem update_chunk_independent hmac m ms output :
  sb_hmac_sha256_finish (foldl sb_hmac_sha256_update hmac (m :: ms)) output
  = sb_hmac_sha256_finish (sb_hmac_sha256_update hmac (concat (m :: ms))) output.
Proof. cbn [foldl concat]. by rewrite update_fold. Qed.

(** C5.  Buffer hygiene.  After [init] and any sequence of public
    operations the key buffer has exactly [SB_SHA256_BLOCK_SIZE] bytes,
    as has every buffer that holds a logical key zero-extended; [init] and
    the one-shot HMAC establish that layout for the prepared key from
    any state; [reinit], [update] and [finish] return with the buffer
    holding the same logical key; [finish_to_key] returns with a key of
    [SB_SHA256_SIZE] bytes followed by zeros, which is the outer hash
    over the old key and the inner digest when the old key had at most
    [SB_SHA256_SIZE] bytes. *)
Theorem key_buffer_hygiene :
  (∀ hmac k ops,
     length (key (foldl run_operation (sb_hmac_sha256_init hmac k) ops))
     = SB_SHA256_BLOCK_SIZE)
  ∧ (∀ k hmac, holds_key k hmac → length (key hmac) = SB_SHA256_BLOCK_SIZE)
  ∧ (∀ hmac k, holds_key (prepare_key k) (sb_hmac_sha256_init hmac k))
  ∧ (∀ hmac k input output,
       holds_key (prepare_key k) (sb_hmac_sha256 hmac k input output).1)
  ∧ (∀ k hmac, holds_key k hmac → holds_key k (sb_hmac_sha256_reinit hmac))
  ∧ (∀ k hmac input,
       holds_key k hmac → holds_key k (sb_hmac_sha256_update hmac input))
  ∧ (∀ k hmac output,
       holds_key k hmac → holds_key k (sb_hmac_sha256_finish hmac output).1)
  ∧ (∀ k hmac,
       holds_key k hmac →
       ∃ k', length k' = SB_SHA256_SIZE
             ∧ holds_key k' (sb_hmac_sha256_finish_to_key hmac))
  ∧ (∀ k hmac,
       holds_key k hmac → length k ≤ SB_SHA256_SIZE →
       holds_key (outer_hash (zero_extend k) (sb_sha256_finish (sha hmac)).2)
                 (sb_hmac_sha256_finish_to_key hmac)).
Proof.
  split.
  { intros hmac k ops. apply run_operations_length.
    apply (holds_key_length _ _ (init_holds_key hmac k)). }
  split; [apply holds_key_length|].
  split; [apply init_holds_key|].
  split.
  { intros hmac k input output. unfold sb_hmac_sha256. cbv zeta.
    destruct (init_holds_key hmac k) as [Hlen Hkey].
    split; [done|]. by rewrite finish_key. }
  split.
  { intros k hmac [Hlen Hkey]. split; [done|]. by rewrite reinit_key. }
  split.
  { intros k hmac input [Hlen Hkey]. by split. }
  split.
  { intros k hmac output [Hlen Hkey]. split; [done|]. by rewrite finish_key. }
  split.
  - intros k hmac Hk.
    destruct (holds_key_halves k hmac Hk) as (Hsplit & Ha & Hb).
    pose proof (finish_to_key_unfold hmac _ _ Hsplit Ha Hb) as Hun.
    cbv zeta in Hun. eexists. split; [|apply holds_digest_sized].
    + apply finish_size.
    + apply finish_size.
    + by rewrite Hun, reinit_key.
  - intros k hmac [Hlen Hkey] Hshort.
    rewrite zero_extend_short in Hkey by done.
    destruct (finish_to_key_value hmac _ Hkey) as [s Hcollapse].
    { rewrite length_app, length_replicate. lia. }
    apply holds_digest_sized; [apply length_hash|].
    rewrite Hcollapse, reinit_key. cbn [key].
    by rewrite Hkey, zero_extend_short.
Qed.

(** C6.  Reinit round trip.  After [init], streaming a message and
    [finish], a [reinit] brings back the very state [init] produced, so
    that streaming the same message again and finishing writes the same
    MAC.  [finish] itself returns with the key buffer as it was and
    leaves in the engine what the engine's own finish left there: it
    does not reinitialize. *)
Theorem finish_reinit_round_trip hmac k input output output' :
  let streamed := sb_hmac_sha256_update (sb_hmac_sha256_init hmac k) input in
  let first := sb_hmac_sha256_finish streamed output in
  let again := sb_hmac_sha256_reinit first.1 in
  let second := sb_hmac_sha256_finish (sb_hmac_sha256_update again input) output' in
  take SB_SHA256_SIZE second.2 = take SB_SHA256_SIZE first.2
  ∧ take SB_SHA256_SIZE first.2 = hmac_reference k input
  ∧ key first.1 = key streamed
  ∧ again = sb_hmac_sha256_init hmac k
  ∧ sha first.1 =
      (sb_sha256_finish
         (sb_sha256_update (sb_sha256_init sha_zeroed)
            (padded opad (zero_extend (prepare_key k))
               ++ inner_hash (zero_extend (prepare_key k)) input))).1.
Proof.
  intros streamed first again second.
  assert (streaming (prepare_key k) input streamed) as Hstr.
  { apply (update_streaming _ [] _ input), init_streaming. }
  assert (key first.1 = key streamed) as Hkey by apply finish_key.
  assert (again = sb_hmac_sha256_init hmac k) as Hagain.
  { unfold again. rewrite init_unfold. apply reinit_depends_on_key.
    rewrite Hkey. destruct Hstr as (_ & -> & _). reflexivity. }
  split.
  { unfold second, first. rewrite Hagain. fold streamed.
    by rewrite !(finish_streaming _ _ _ _ Hstr). }
  split; [by apply finish_streaming|].
  split; [done|]. split; [done|].
  unfold first. rewrite finish_unfold. cbv zeta. cbn [sha fst with_sha].
  pose proof Hstr as (Hlen & Hk & Hsha).
  rewrite key_pad_bytes by (rewrite Hk; by apply length_zero_extend).
  rewrite memcpy_digest by apply finish_size.
  rewrite bytes_at_first by apply finish_size.
  rewrite update_chunks, (init_resets _ sha_zeroed), Hk.
  unfold inner_hash, hash. by rewrite Hsha.
Qed.

(** C10.  The output buffer as scratch space.  Two runs of [finish] from
    the same state write the same [SB_SHA256_SIZE] bytes and leave the
    same state whatever the two output buffers held before; the bytes
    of a buffer beyond the MAC are not touched. *)
Theorem finish_ignores_output_contents hmac output output' :
  take SB_SHA256_SIZE (sb_hmac_sha256_finish hmac output).2
  = take SB_SHA256_SIZE (sb_hmac_sha256_finish hmac output').2
  ∧ length (take SB_SHA256_SIZE (sb_hmac_sha256_finish hmac output).2)
    = SB_SHA256_SIZE
  ∧ (sb_hmac_sha256_finish hmac output).1 = (sb_hmac_sha256_finish hmac output').1
  ∧ drop SB_SHA256_SIZE (sb_hmac_sha256_finish hmac output).2
    = drop SB_SHA256_SIZE output.
Proof.
  rewrite !finish_output.
  rewrite !take_app_exact, drop_app_exact by apply finish_size.
  split; [done|]. split; [apply finish_size|].
  split; [apply finish_state|done].
Qed.

(** *** How the operations compose *)

Lemma updates_streaming k msg hmac (ms : list (list sb_byte_t)) :
  streaming k msg hmac →
  streaming k (msg ++ concat ms) (foldl sb_hmac_sha256_update hmac ms).
Proof.
  revert msg hmac. induction ms as [|m ms IH]; intros msg hmac Hstr; cbn [foldl concat].
  - by rewrite app_nil_r.
  - rewrite app_assoc. by apply IH, update_streaming.
Qed.

(** X1.  HMAC.  After [init] with the key [k], any number of [update]
    calls (none, or some of them with no bytes) followed by [finish]
    writes the HMAC of [k] and the concatenation of the chunks, as RFC
    2104 defines it from the hash: H((K0 xor opad) || H((K0 xor ipad) ||
    message)), K0 being the key, or its hash when it is longer than a
    block, zero-extended to a block.  So does the one-shot function. *)
Theorem streamed_mac_reference hmac k (ms : list (list sb_byte_t)) input output :
  take SB_SHA256_SIZE
    (sb_hmac_sha256_finish
       (foldl sb_hmac_sha256_update (sb_hmac_sha256_init hmac k) ms) output).2
  = hmac_reference k (concat ms)
  ∧ take SB_SHA256_SIZE (sb_hmac_sha256 hmac k input output).2
    = hmac_reference k input.
Proof.
  split.
  - apply finish_streaming, (updates_streaming _ [] _ ms), init_streaming.
  - apply sb_hmac_sha256_reference.
Qed.

Lemma finish_to_key_ends_with_reinit hmac :
  ∃ hmac', sb_hmac_sha256_finish_to_key hmac = sb_hmac_sha256_reinit hmac'.
Proof.
  unfold sb_hmac_sha256_finish_to_key. cbv zeta.
  destruct (sb_sha256_finish _) as [s d].
  destruct (sb_sha256_finish _) as [s' d'].
  by eexists.
Qed.

(** X3.  [reinit] starts the stream over: what was streamed, and a
    [finish], are forgotten; and it changes nothing right after [init], [reinit]
    or [finish_to_key], which all end with it. *)
Theorem reinit_forgets_stream hmac k input output :
  sb_hmac_sha256_reinit (sb_hmac_sha256_update hmac input) = sb_hmac_sha256_reinit hmac
  ∧ sb_hmac_sha256_reinit (sb_hmac_sha256_finish hmac output).1
    = sb_hmac_sha256_reinit hmac
  ∧ sb_hmac_sha256_reinit (sb_hmac_sha256_reinit hmac) = sb_hmac_sha256_reinit hmac
  ∧ sb_hmac_sha256_reinit (sb_hmac_sha256_init hmac k) = sb_hmac_sha256_init hmac k
  ∧ sb_hmac_sha256_reinit (sb_hmac_sha256_finish_to_key hmac)
    = sb_hmac_sha256_finish_to_key hmac.
Proof.
  assert (∀ h, sb_hmac_sha256_reinit (sb_hmac_sha256_reinit h) = sb_hmac_sha256_reinit h)
    as Hidem.
  { intros h. apply reinit_depends_on_key, reinit_key. }
  split; [by apply reinit_depends_on_key|].
  split; [apply reinit_depends_on_key, finish_key|].
  split; [apply Hidem|].
  split; [rewrite init_unfold; apply Hidem|].
  destruct (finish_to_key_ends_with_reinit hmac) as [hmac' ->]. apply Hidem.
Qed.

(** X4.  Empty input.  An [update] with no bytes changes nothing once
    the state has been initialised, or updated before. *)
Theorem update_empty_noop hmac k input :
  sb_hmac_sha256_update (sb_hmac_sha256_init hmac k) [] = sb_hmac_sha256_init hmac k
  ∧ sb_hmac_sha256_update (sb_hmac_sha256_reinit hmac) [] = sb_hmac_sha256_reinit hmac
  ∧ sb_hmac_sha256_update (sb_hmac_sha256_finish_to_key hmac) []
    = sb_hmac_sha256_finish_to_key hmac
  ∧ sb_hmac_sha256_update (sb_hmac_sha256_update hmac input) []
    = sb_hmac_sha256_update hmac input.
Proof.
  assert (∀ h, sb_hmac_sha256_update (sb_hmac_sha256_reinit h) [] = sb_hmac_sha256_reinit h)
    as Hreinit.
  { intros h. rewrite reinit_unfold. unfold sb_hmac_sha256_update.
    cbn [sha key with_sha]. by rewrite update_chunks, app_nil_r. }
  split; [rewrite init_unfold; apply Hreinit|].
  split; [apply Hreinit|].
  split.
  - destruct (finish_to_key_ends_with_reinit hmac) as [hmac' ->]. apply Hreinit.
  - unfold sb_hmac_sha256_update. cbn [sha key with_sha].
    by rewrite update_chunks, app_nil_r.
Qed.

(** *** Key collapse in a chain *)

Lemma length_outer_hash key_block inner_digest :
  length (outer_hash key_block inner_digest) = SB_SHA256_SIZE.
Proof. apply length_hash. Qed.

Lemma prepare_key_short k :
  length k ≤ SB_SHA256_BLOCK_SIZE → prepare_key k = k.
Proof.
  intros Hk. unfold prepare_key.
  by assert ((SB_SHA256_BLOCK_SIZE <? length k) = false) as -> by (apply Nat.ltb_ge; lia).
Qed.

Lemma prepare_key_digest_sized d :
  length d = SB_SHA256_SIZE → prepare_key d = d.
Proof.
  intros Hd. apply prepare_key_short. rewrite Hd.
  unfold SB_SHA256_SIZE, SB_SHA256_BLOCK_SIZE. lia.
Qed.

Lemma finish_to_key_then_init k hmac hmac' output :
  holds_key k hmac → length k ≤ SB_SHA256_SIZE →
  sb_hmac_sha256_finish_to_key hmac
  = sb_hmac_sha256_init hmac'
      (take SB_SHA256_SIZE (sb_hmac_sha256_finish hmac output).2).
Proof.
  intros Hk Hshort. pose proof Hk as [Hlen Hkey].
  rewrite zero_extend_short in Hkey by done.
  destruct (finish_to_key_value hmac _ Hkey) as [s ->].
  { rewrite length_app, length_replicate. lia. }
  rewrite finish_mac by (by eapply holds_key_length).
  rewrite init_unfold. apply reinit_depends_on_key. cbn [key].
  rewrite prepare_key_digest_sized by apply length_outer_hash.
  by rewrite zero_extend_digest_sized by apply length_outer_hash.
Qed.

(** X5.  Key collapse as a composition.  With a logical key of at most
    [SB_SHA256_SIZE] bytes in the buffer and any engine state,
    [finish_to_key] does in place what [finish] followed by [init] with
    the MAC as key do with buffers of their own. *)
Theorem finish_to_key_is_finish_then_init k hmac hmac' output :
  holds_key k hmac → length k ≤ SB_SHA256_SIZE →
  sb_hmac_sha256_finish_to_key hmac
  = sb_hmac_sha256_init hmac'
      (take SB_SHA256_SIZE (sb_hmac_sha256_finish hmac output).2).
Proof. apply finish_to_key_then_init. Qed.

(** One rotation of the key, as HMAC-DRBG does it: stream a message
    under the key [k], then collapse. *)
Lemma key_rotation_step hmac hmac' k input :
  length (prepare_key k) ≤ SB_SHA256_SIZE →
  sb_hmac_sha256_finish_to_key (sb_hmac_sha256_update (sb_hmac_sha256_init hmac k) input)
  = sb_hmac_sha256_init hmac' (hmac_reference k input).
Proof.
  intros Hshort.
  assert (streaming (prepare_key k) input
            (sb_hmac_sha256_update (sb_hmac_sha256_init hmac k) input)) as Hstr.
  { apply (update_streaming _ [] _ input), init_streaming. }
  rewrite (finish_to_key_then_init (prepare_key k) _ hmac' []);
    [|by destruct Hstr as (? & ? & _)|done].
  by rewrite (finish_streaming _ _ _ _ Hstr).
Qed.

(** X6.  Key rotation in a chain.  Starting from a key that is at most
    [SB_SHA256_SIZE] bytes once prepared (a short key, or one longer than
    a block), streaming a message and collapsing, again and again, leaves
    the state [init] makes for the key K_n, where K_0 is the key and
    K_(i+1) = HMAC(K_i, m_(i+1)): the precondition of [finish_to_key]
    holds again after each collapse. *)
Theorem key_rotation_chain hmac k (ms : list (list sb_byte_t)) :
  length (prepare_key k) ≤ SB_SHA256_SIZE →
  foldl (λ h m, sb_hmac_sha256_finish_to_key (sb_hmac_sha256_update h m))
        (sb_hmac_sha256_init hmac k) ms
  = sb_hmac_sha256_init hmac (foldl hmac_reference k ms).
Proof.
  revert k. induction ms as [|m ms IH]; intros k Hshort; cbn [foldl].
  - done.
  - rewrite (key_rotation_step hmac hmac k m Hshort). apply IH.
    unfold hmac_reference.
    rewrite prepare_key_digest_sized by apply length_outer_hash.
    by rewrite length_outer_hash.
Qed.

(** X7.  Outside its precondition.  Whatever the 64 bytes of the key buffer,
    the outer pass of [finish_to_key] is fed the first [SB_SHA256_SIZE]
    bytes of the buffer and the pad constant for the rest: the new key is
    the outer hash for the key cut to its first half, over the inner
    digest of the engine, and the second half of the old key plays no
    part in the outer pass. *)
Theorem finish_to_key_truncates_key hmac :
  length (key hmac) = SB_SHA256_BLOCK_SIZE →
  key (sb_hmac_sha256_finish_to_key hmac)
  = outer_hash (take SB_SHA256_SIZE (key hmac) ++ replicate SB_SHA256_SIZE x00)
               (sb_sha256_finish (sha hmac)).2
      ++ replicate SB_SHA256_SIZE x00.
Proof.
  intros Hlen.
  assert (holds_key (key hmac) hmac) as Hk.
  { split; [lia|]. unfold zero_extend.
    rewrite Hlen, Nat.sub_diag. cbn [replicate]. by rewrite app_nil_r. }
  destruct (holds_key_halves _ _ Hk) as (Hsplit & Ha & Hb).
  pose proof (finish_to_key_unfold hmac _ _ Hsplit Ha Hb) as Hun.
  cbv zeta in Hun. rewrite Hun, reinit_key. cbn [key]. f_equal.
  rewrite !update_chunks, app_assoc, (init_resets _ sha_zeroed).
  unfold outer_hash, hash. by rewrite padded_app, padded_zeros.
Qed.

(** *** Keys that [init] does not tell apart *)

(** X2.  Zero bytes at the end of a key of at most a block make no
    difference: the state after [init], and so every MAC, is the same
    with and without them.  In particular the empty key is the key of
    [n <= 64] zero bytes. *)
Theorem init_trailing_zeros hmac hmac' k n input output :
  length k + n ≤ SB_SHA256_BLOCK_SIZE →
  sb_hmac_sha256_init hmac (k ++ replicate n x00) = sb_hmac_sha256_init hmac' k
  ∧ sb_hmac_sha256 hmac (k ++ replicate n x00) input output
    = sb_hmac_sha256 hmac' k input output.
Proof.
  intros Hlen.
  assert (sb_hmac_sha256_init hmac (k ++ replicate n x00) = sb_hmac_sha256_init hmac' k)
    as Hinit.
  { rewrite !init_unfold.
    rewrite !prepare_key_short by (rewrite ?length_app, ?length_replicate; lia).
    rewrite length_app, length_replicate.
    assert ((SB_SHA256_BLOCK_SIZE <? length k + n) = false) as ->
      by (apply Nat.ltb_ge; lia).
    assert ((SB_SHA256_BLOCK_SIZE <? length k) = false) as ->
      by (apply Nat.ltb_ge; lia).
    do 2 f_equal. unfold zero_extend.
    rewrite <- app_assoc, <- replicate_add, length_app, length_replicate.
    do 2 f_equal. lia. }
  split; [done|]. unfold sb_hmac_sha256. cbv zeta. by rewrite Hinit.
Qed.

End Contract.

(** ** Properties that hold over any engine *)

Section AnyEngine.
Context {E : HashEngine}.
Implicit Types (hmac : sb_hmac_sha256_state_t) (pad : sb_byte_t).

(** C7.  Pad toggle.  The toggle XORs each of the first
    [SB_SHA256_BLOCK_SIZE] bytes of the key buffer, that is all of them,
    with the pad constant; applied twice with the same constant it gives
    back the state it started from, whatever the buffer and the
    constant; the inner and outer constants are 0x36 and 0x5c, which
    differ. *)
Theorem key_pad_self_inverse hmac pad :
  sb_hmac_sha256_key_pad (sb_hmac_sha256_key_pad hmac pad) pad = hmac
  ∧ key (sb_hmac_sha256_key_pad hmac pad)
    = ((λ b, byte_xor b pad) <$> take SB_SHA256_BLOCK_SIZE (key hmac))
        ++ drop SB_SHA256_BLOCK_SIZE (key hmac)
  ∧ (∀ b, Byte.to_N (byte_xor b pad) = N.lxor (Byte.to_N b) (Byte.to_N pad))
  ∧ Byte.to_N ipad = 0x36%N ∧ Byte.to_N opad = 0x5c%N ∧ ipad ≠ opad.
Proof.
  split; [apply key_pad_twice|].
  split; [apply key_pad_key|].
  split; [intros b; apply byte_xor_to_N|].
  by repeat split.
Qed.

(** C8.  [init] starts from a zeroed state: the state it produces
    depends on the key bytes alone, not on what the state object held
    before. *)
Theorem init_ignores_prior_state hmac hmac' (k : list sb_byte_t) :
  sb_hmac_sha256_init hmac k = sb_hmac_sha256_init hmac' k.
Proof. reflexivity. Qed.

(** C9.  [update] changes the engine only: the key buffer is the same
    byte for byte after the call, and the engine is the old engine
    updated with the input. *)
Theorem update_preserves_key hmac (input : list sb_byte_t) :
  key (sb_hmac_sha256_update hmac input) = key hmac
  ∧ sha (sb_hmac_sha256_update hmac input) = sb_sha256_update (sha hmac) input.
Proof. by split. Qed.

End AnyEngine.

(** ** The SHA-256 engine honours the contract *)

Lemma sha256_init_resets (s s' : @sb_sha256_state_t sha256_engine) :
  sb_sha256_init s = sb_sha256_init s'.
Proof. reflexivity. Qed.

Lemma sha256_update_chunks (s : @sb_sha256_state_t sha256_engine) (a b : list sb_byte_t) :
  sb_sha256_update (sb_sha256_update s a) b = sb_sha256_update s (a ++ b).
Proof.
  change (SHA256.update (SHA256.update s a) b = SHA256.update s (a ++ b)).
  unfold SHA256.update. by rewrite foldl_app.
Qed.

Lemma sha256_finish_size (s : @sb_sha256_state_t sha256_engine) :
  length (sb_sha256_finish s).2 = SB_SHA256_SIZE.
Proof.
  change (length (SHA256.finish s).2 = SB_SHA256_SIZE).
  unfold SHA256.finish. cbn [snd]. by destruct (SHA256.ihash _).
Qed.

(** The constants computed from the primes are those the standard
    lists: its first and last round constants, and its initial hash
    value. *)
Example round_constants_ends :
  length SHA256.round_constants = 64
  ∧ head SHA256.round_constants = Some 0x428a2f98%Z
  ∧ last SHA256.round_constants = Some 0xc67178f2%Z.
Proof. by vm_compute. Qed.

Example initial_hash_value :
  SHA256.initial_hash
  = SHA256.Words8 0x6a09e667 0xbb67ae85 0x3c6ef372 0xa54ff53a
                  0x510e527f 0x9b05688c 0x1f83d9ab 0x5be0cd19.
Proof. reflexivity. Qed.

(** The digest of the empty message (FIPS 180-4 test data). *)
Example sha256_empty :
  hash [] =
    [ xe3; xb0; xc4; x42; x98; xfc; x1c; x14; x9a; xfb; xf4; xc8; x99; x6f; xb9; x24;
      x27; xae; x41; xe4; x64; x9b; x93; x4c; xa4; x95; x99; x1b; x78; x52; xb8; x55 ].
Proof. vm_compute. reflexivity. Qed.

(** ** The RFC 4231 vectors on the SHA-256 engine *)

(** C2.  Test vectors.  With the 20 bytes 0x0b as key and the 8 bytes of
    "Hi There" as message, the one-shot [sb_hmac_sha256] writes the 32
    bytes b0344c61 ... 2e32cff7 ([TEST_H1]) at the output location, from
    any prior state and over any prior output contents (bytes of the
    buffer past the MAC are left as they were); with the key "Jefe" and
    the message "what do ya want for nothing?" it writes [TEST_H2], which
    begins 5bdcc146 bf60754e 6a042426 089575c7. *)
Theorem rfc4231_vectors (hmac : sb_hmac_sha256_state_t) (output : list sb_byte_t) :
  (sb_hmac_sha256 hmac TEST_K1 TEST_M1 output).2
  = TEST_H1 ++ drop SB_SHA256_SIZE output
  ∧ (sb_hmac_sha256 hmac TEST_K2 TEST_M2 output).2
    = TEST_H2 ++ drop SB_SHA256_SIZE output
  ∧ length TEST_H1 = SB_SHA256_SIZE ∧ length TEST_H2 = SB_SHA256_SIZE
  ∧ TEST_K1 = [ x0b; x0b; x0b; x0b; x0b; x0b; x0b; x0b; x0b; x0b;
                x0b; x0b; x0b; x0b; x0b; x0b; x0b; x0b; x0b; x0b ]
  ∧ TEST_M1 = String.list_byte_of_string "Hi There"%string
  ∧ TEST_K2 = String.list_byte_of_string "Jefe"%string
  ∧ TEST_M2 = String.list_byte_of_string "what do ya want for nothing?"%string
  ∧ take 16 TEST_H2 = [ x5b; xdc; xc1; x46; xbf; x60; x75; x4e;
                        x6a; x04; x24; x26; x08; x95; x75; xc7 ].
Proof.
  unfold sb_hmac_sha256. cbv zeta.
  rewrite !(finish_output sha256_finish_size).
  split; [f_equal; vm_compute; reflexivity|].
  split; [f_equal; vm_compute; reflexivity|].
  by repeat split.
Qed.

(** On this engine the state [finish] returns is not the state [reinit]
    makes of it: the engine is left finalised. *)
Example finish_leaves_engine_finalised :
  let finished :=
    (sb_hmac_sha256_finish
       (sb_hmac_sha256_update (sb_hmac_sha256_init hmac_zeroed TEST_K1) TEST_M1)
       (replicate SB_SHA256_SIZE x00)).1 in
  sb_hmac_sha256_reinit finished ≠ finished.
Proof.
  intros finished Heq.
  pose proof (f_equal (λ h, SHA256.total_bytes (sha h)) Heq) as Hbytes.
  vm_compute in Hbytes. discriminate Hbytes.
Qed.

(** ** The theorems at concrete inputs, on the SHA-256 engine *)

Lemma finish_to_key_collapses_witness :
  let k := replicate SB_SHA256_SIZE x0b in
  let hmac := sb_hmac_sha256_update (sb_hmac_sha256_init hmac_zeroed k) TEST_M1 in
  let new_key := outer_hash (zero_extend k) (inner_hash (zero_extend k) TEST_M1) in
  length k = SB_SHA256_SIZE
  ∧ streaming k TEST_M1 hmac
  ∧ key (sb_hmac_sha256_finish_to_key hmac) = new_key ++ replicate SB_SHA256_SIZE x00
  ∧ take SB_SHA256_SIZE (sb_hmac_sha256_finish hmac []).2 = new_key
  ∧ sb_hmac_sha256_finish_to_key hmac = sb_hmac_sha256_init hmac new_key.
Proof.
  intros k hmac new_key.
  assert (length k = SB_SHA256_SIZE) as Hk by reflexivity.
  assert (streaming k TEST_M1 hmac) as Hstr.
  { split; [|split]; vm_compute; [lia|reflexivity|reflexivity]. }
  destruct (finish_to_key_collapses sha256_init_resets sha256_update_chunks
              sha256_finish_size k TEST_M1 hmac [] Hk Hstr)
    as (_ & Hkey & Hmac & _ & Hinit).
  exact (conj Hk (conj Hstr (conj Hkey (conj Hmac Hinit)))).
Defined.

Lemma long_key_equivalence_witness :
  SB_SHA256_BLOCK_SIZE < length TEST_K6
  ∧ sb_hmac_sha256 hmac_zeroed TEST_K6 TEST_M6 []
    = sb_hmac_sha256 hmac_zeroed (hash TEST_K6) TEST_M6 []
  ∧ key (sb_hmac_sha256_init hmac_zeroed TEST_K6)
    = hash TEST_K6 ++ replicate (SB_SHA256_BLOCK_SIZE - SB_SHA256_SIZE) x00.
Proof.
  assert (SB_SHA256_BLOCK_SIZE < length TEST_K6) as Hlong by (vm_compute; lia).
  split; [exact Hlong|].
  exact (long_key_equivalence sha256_init_resets sha256_finish_size
           hmac_zeroed hmac_zeroed TEST_K6 TEST_M6 [] Hlong).
Defined.

Lemma update_chunk_independent_witness :
  let hmac := sb_hmac_sha256_init hmac_zeroed TEST_K2 in
  let m1 := take 8 TEST_M2 in
  let m2 := take 8 (drop 8 TEST_M2) in
  let m3 := drop 16 TEST_M2 in
  sb_hmac_sha256_finish (foldl sb_hmac_sha256_update hmac [m1; m2; m3]) []
  = sb_hmac_sha256_finish (sb_hmac_sha256_update hmac (concat [m1; m2; m3])) [].
Proof.
  intros hmac m1 m2 m3.
  exact (update_chunk_independent sha256_update_chunks hmac m1 [m2; m3] []).
Defined.

Lemma key_buffer_hygiene_witness :
  let hmac := sb_hmac_sha256_init hmac_zeroed TEST_K1 in
  holds_key TEST_K1 hmac
  ∧ length (key (foldl run_operation hmac
                   [OpUpdate TEST_M1; OpFinishToKey; OpUpdate TEST_M2; OpFinish []]))
    = SB_SHA256_BLOCK_SIZE
  ∧ holds_key TEST_K1 (sb_hmac_sha256_finish hmac []).1
  ∧ holds_key (outer_hash (zero_extend TEST_K1) (sb_sha256_finish (sha hmac)).2)
              (sb_hmac_sha256_finish_to_key hmac).
Proof.
  intros hmac.
  destruct (key_buffer_hygiene sha256_init_resets sha256_update_chunks
              sha256_finish_size)
    as (Htrace & _ & Hinit & _ & _ & _ & Hfinish & _ & Hcollapse).
  assert (holds_key TEST_K1 hmac) as Hk by exact (Hinit hmac_zeroed TEST_K1).
  assert (length TEST_K1 ≤ SB_SHA256_SIZE) as Hshort by (vm_compute; lia).
  exact (conj Hk (conj (Htrace hmac_zeroed TEST_K1 _)
          (conj (Hfinish _ _ [] Hk) (Hcollapse _ _ Hk Hshort)))).
Defined.

Lemma finish_reinit_round_trip_witness :
  let streamed := sb_hmac_sha256_update (sb_hmac_sha256_init hmac_zeroed TEST_K1) TEST_M1 in
  let first := sb_hmac_sha256_finish streamed (replicate SB_SHA256_SIZE x00) in
  let again := sb_hmac_sha256_reinit first.1 in
  let second :=
    sb_hmac_sha256_finish (sb_hmac_sha256_update again TEST_M1)
      (replicate SB_SHA256_SIZE xff) in
  take SB_SHA256_SIZE second.2 = take SB_SHA256_SIZE first.2
  ∧ take SB_SHA256_SIZE first.2 = hmac_reference TEST_K1 TEST_M1
  ∧ key first.1 = key streamed
  ∧ again = sb_hmac_sha256_init hmac_zeroed TEST_K1.
Proof.
  intros streamed first again second.
  destruct (finish_reinit_round_trip sha256_init_resets sha256_update_chunks
              sha256_finish_size hmac_zeroed TEST_K1 TEST_M1
              (replicate SB_SHA256_SIZE x00) (replicate SB_SHA256_SIZE xff))
    as (Hsame & Hmac & Hkey & Hagain & _).
  exact (conj Hsame (conj Hmac (conj Hkey Hagain))).
Defined.

Lemma finish_ignores_output_contents_witness :
  let hmac := sb_hmac_sha256_update (sb_hmac_sha256_init hmac_zeroed TEST_K1) TEST_M1 in
  take SB_SHA256_SIZE (sb_hmac_sha256_finish hmac (replicate SB_SHA256_SIZE x00)).2
  = take SB_SHA256_SIZE (sb_hmac_sha256_finish hmac (replicate SB_SHA256_SIZE xff)).2
  ∧ (sb_hmac_sha256_finish hmac (replicate SB_SHA256_SIZE x00)).1
    = (sb_hmac_sha256_finish hmac (replicate SB_SHA256_SIZE xff)).1.
Proof.
  intros hmac.
  destruct (finish_ignores_output_contents sha256_finish_size hmac
              (replicate SB_SHA256_SIZE x00) (replicate SB_SHA256_SIZE xff))
    as (Hmac & _ & Hstate & _).
  exact (conj Hmac Hstate).
Defined.

(** ** Further properties on the SHA-256 engine *)

Lemma memcmp_prefix_take (v e : list sb_byte_t) :
  take (length e) v = e → memcmp_prefix v e = true.
Proof.
  revert v. induction e as [|b e IH]; intros v Hv; [done|].
  destruct v as [|a v]; [done|].
  cbn [length take] in Hv. injection Hv as -> Hv.
  cbn [memcmp_prefix]. rewrite IH by done.
  by assert (Byte.eqb b b = true) as -> by (by apply Byte.byte_dec_lb).
Qed.

(** One run of the test passes when the MAC of the vector, computed from
    a zeroed state into an empty buffer, starts with the expected bytes:
    neither the state nor the buffer left by the run before matter. *)
Lemma SB_RUN_TEST_passes
    (SB_TEST_ASSERT_EQUAL : list sb_byte_t → list sb_byte_t → bool)
    (locals : sb_hmac_sha256_state_t * list sb_byte_t)
    (TEST_K TEST_M TEST_H : list sb_byte_t) :
  (∀ v e, take (length e) v = e → SB_TEST_ASSERT_EQUAL v e = true) →
  length TEST_H ≤ SB_SHA256_SIZE →
  take (length TEST_H) (sb_hmac_sha256 hmac_zeroed TEST_K TEST_M []).2 = TEST_H →
  is_Some (SB_RUN_TEST SB_TEST_ASSERT_EQUAL locals (TEST_K, TEST_M, TEST_H)).
Proof.
  intros Hassert Hlen Hmac. destruct locals as [hmac h].
  unfold SB_RUN_TEST.
  change (sb_hmac_sha256_init hmac TEST_K) with (sb_hmac_sha256_init hmac_zeroed TEST_K).
  set (streamed := sb_hmac_sha256_update (sb_hmac_sha256_init hmac_zeroed TEST_K) TEST_M).
  assert (take (length TEST_H) (sb_hmac_sha256_finish streamed h).2 = TEST_H) as Hh.
  { unfold sb_hmac_sha256 in Hmac. cbv zeta in Hmac. fold streamed in Hmac.
    rewrite (finish_output sha256_finish_size) in Hmac |- *.
    rewrite take_app_le in Hmac |- * by (rewrite sha256_finish_size; lia).
    done. }
  destruct (sb_hmac_sha256_finish streamed h) as [hmac' h'].
  cbn [snd] in Hh. by rewrite (Hassert _ _ Hh).
Qed.

(** X9.  The self-test.  [sb_test_hmac_sha256] returns 1: the seven RFC 4231
    vectors are reproduced one after the other on the same state object
    and into the same buffer, whatever the two held at first, provided
    the assertion accepts a buffer that starts with the expected bytes
    (vector 5 expects the first 16 bytes of the MAC only). *)
Theorem sb_test_hmac_sha256_passes
    (SB_TEST_ASSERT_EQUAL : list sb_byte_t → list sb_byte_t → bool)
    (hmac : sb_hmac_sha256_state_t) (h : list sb_byte_t) :
  (∀ v e, take (length e) v = e → SB_TEST_ASSERT_EQUAL v e = true) →
  sb_test_hmac_sha256 SB_TEST_ASSERT_EQUAL hmac h = true.
Proof.
  intros Hassert. unfold sb_test_hmac_sha256, test_vectors. cbn [foldl].
  repeat match goal with
  | |- context [SB_RUN_TEST _ ?locals (?K, ?M, ?H)] =>
      let Hrun := fresh "Hrun" in
      assert (is_Some (SB_RUN_TEST SB_TEST_ASSERT_EQUAL locals (K, M, H))) as Hrun
        by (apply SB_RUN_TEST_passes;
            [exact Hassert | vm_compute; lia | vm_compute; reflexivity]);
      destruct Hrun as [? ->]
  end.
  reflexivity.
Qed.

(** X8.  The precondition of [finish_to_key] is needed: there is a key of
    more than [SB_SHA256_SIZE] bytes and a message for which the key it
    leaves in the buffer is not the HMAC of the message. *)
Theorem finish_to_key_needs_short_key :
  ∃ k input : list sb_byte_t,
    length k ≤ SB_SHA256_BLOCK_SIZE
    ∧ take SB_SHA256_SIZE
        (key (sb_hmac_sha256_finish_to_key
                (sb_hmac_sha256_update (sb_hmac_sha256_init hmac_zeroed k) input)))
      ≠ hmac_reference k input.
Proof.
  exists (replicate 33 x0b), TEST_M1. split; [vm_compute; lia|].
  intros Heq. apply (f_equal head) in Heq. vm_compute in Heq. discriminate Heq.
Qed.

(** ** The further theorems at concrete inputs *)

Lemma streamed_mac_reference_witness :
  take SB_SHA256_SIZE
    (sb_hmac_sha256_finish
       (foldl sb_hmac_sha256_update (sb_hmac_sha256_init hmac_zeroed TEST_K2)
          [take 8 TEST_M2; []; drop 8 TEST_M2]) []).2
  = hmac_reference TEST_K2 (concat [take 8 TEST_M2; []; drop 8 TEST_M2])
  ∧ take SB_SHA256_SIZE (sb_hmac_sha256 hmac_zeroed TEST_K2 TEST_M2 []).2
    = hmac_reference TEST_K2 TEST_M2.
Proof.
  exact (streamed_mac_reference sha256_init_resets sha256_update_chunks
           sha256_finish_size hmac_zeroed TEST_K2
           [take 8 TEST_M2; []; drop 8 TEST_M2] TEST_M2 []).
Defined.

Lemma init_trailing_zeros_witness :
  length TEST_K2 + 60 ≤ SB_SHA256_BLOCK_SIZE
  ∧ sb_hmac_sha256 hmac_zeroed (TEST_K2 ++ replicate 60 x00) TEST_M2 []
    = sb_hmac_sha256 hmac_zeroed TEST_K2 TEST_M2 [].
Proof.
  assert (length TEST_K2 + 60 ≤ SB_SHA256_BLOCK_SIZE) as Hlen by (vm_compute; lia).
  exact (conj Hlen
           (proj2 (init_trailing_zeros hmac_zeroed hmac_zeroed TEST_K2 60 TEST_M2 [] Hlen))).
Defined.

Lemma reinit_forgets_stream_witness :
  let hmac := sb_hmac_sha256_init hmac_zeroed TEST_K1 in
  sb_hmac_sha256_reinit (sb_hmac_sha256_update hmac TEST_M1) = sb_hmac_sha256_reinit hmac
  ∧ sb_hmac_sha256_reinit hmac = hmac.
Proof.
  intros hmac.
  destruct (reinit_forgets_stream sha256_init_resets hmac_zeroed TEST_K1 TEST_M1 [])
    as (_ & _ & _ & Hinit & _).
  destruct (reinit_forgets_stream sha256_init_resets hmac TEST_K1 TEST_M1 [])
    as (Hupdate & _).
  exact (conj Hupdate Hinit).
Defined.

Lemma update_empty_noop_witness :
  sb_hmac_sha256_update (sb_hmac_sha256_init hmac_zeroed TEST_K1) []
  = sb_hmac_sha256_init hmac_zeroed TEST_K1.
Proof.
  exact (proj1 (update_empty_noop sha256_update_chunks hmac_zeroed TEST_K1 [])).
Defined.

Lemma finish_to_key_is_finish_then_init_witness :
  let hmac := sb_hmac_sha256_update (sb_hmac_sha256_init hmac_zeroed TEST_K1) TEST_M1 in
  holds_key TEST_K1 hmac
  ∧ length TEST_K1 ≤ SB_SHA256_SIZE
  ∧ sb_hmac_sha256_finish_to_key hmac
    = sb_hmac_sha256_init hmac_zeroed
        (take SB_SHA256_SIZE (sb_hmac_sha256_finish hmac []).2).
Proof.
  intros hmac.
  assert (holds_key TEST_K1 hmac) as Hk.
  { split; vm_compute; [lia|reflexivity]. }
  assert (length TEST_K1 ≤ SB_SHA256_SIZE) as Hshort by (vm_compute; lia).
  exact (conj Hk (conj Hshort
    (finish_to_key_is_finish_then_init sha256_init_resets sha256_update_chunks
       sha256_finish_size TEST_K1 hmac hmac_zeroed [] Hk Hshort))).
Defined.

Lemma key_rotation_chain_witness :
  length (prepare_key TEST_K6) ≤ SB_SHA256_SIZE
  ∧ foldl (λ h m, sb_hmac_sha256_finish_to_key (sb_hmac_sha256_update h m))
          (sb_hmac_sha256_init hmac_zeroed TEST_K6) [TEST_M1; TEST_M2]
    = sb_hmac_sha256_init hmac_zeroed (foldl hmac_reference TEST_K6 [TEST_M1; TEST_M2]).
Proof.
  assert (length (prepare_key TEST_K6) ≤ SB_SHA256_SIZE) as Hshort by (vm_compute; lia).
  exact (conj Hshort
    (key_rotation_chain sha256_init_resets sha256_update_chunks sha256_finish_size
       hmac_zeroed TEST_K6 [TEST_M1; TEST_M2] Hshort)).
Defined.

Lemma finish_to_key_truncates_key_witness :
  let hmac :=
    sb_hmac_sha256_update (sb_hmac_sha256_init hmac_zeroed (replicate 64 x0b)) TEST_M1 in
  length (key hmac) = SB_SHA256_BLOCK_SIZE
  ∧ key (sb_hmac_sha256_finish_to_key hmac)
    = outer_hash (take SB_SHA256_SIZE (key hmac) ++ replicate SB_SHA256_SIZE x00)
                 (sb_sha256_finish (sha hmac)).2
        ++ replicate SB_SHA256_SIZE x00.
Proof.
  intros hmac.
  assert (length (key hmac) = SB_SHA256_BLOCK_SIZE) as Hlen by (vm_compute; reflexivity).
  exact (conj Hlen
    (finish_to_key_truncates_key sha256_init_resets sha256_update_chunks
       sha256_finish_size hmac Hlen)).
Defined.

Lemma sb_test_hmac_sha256_passes_witness :
  sb_test_hmac_sha256 memcmp_prefix hmac_zeroed (replicate SB_SHA256_SIZE xff) = true.
Proof.
  exact (sb_test_hmac_sha256_passes memcmp_prefix hmac_zeroed
           (replicate SB_SHA256_SIZE xff) memcmp_prefix_take).
Defined.
